(** * SFTP-to-Google-Shared-Drive: a shallow embedding of the batch pipeline

    The script moves ZIP archives from an SFTP server to a shared drive.
    Inside each archive an index CSV drives the renaming of the payload
    files; the index CSVs of all archives are merged into one sorted master
    CSV.  This development embeds the functions of
    [SFTP-to-Google-Shared-Drive.py] and states the properties of the
    specification over them.

    Conventions of the embedding:
    - a Python [str] is a [string], read as the UTF-8 bytes of the text
      (byte-wise lexicographic order is code-point order);
    - [logging.info/warning/error] calls append to an explicit log;
    - the outcome of a call into the operating system or a remote service
      (open, read, rename, fetch, upload) is part of the input: every
      such call either returns or raises, and [try ... except Exception]
      is written out as the match on that outcome. *)

From Stdlib Require Import Ascii String.
From stdpp Require Import base option list strings sorting gmap pretty.

Local Open Scope string_scope.
Local Open Scope list_scope.
Local Open Scope nat_scope.

(* ------------------------------------------------------------------ *)
(** * Logging *)
(* ------------------------------------------------------------------ *)

Inductive level := INFO | WARNING | ERROR.

(** One constructor per [logging] call site that the properties mention;
    the arguments are the values interpolated into the message. *)
Inductive message :=
  (* aggregate_index_csv *)
  | HeaderMismatch (idx_csv : string)
  | ErrorReadingIndex (idx_csv : string)
  | ErrorSortingMaster
  | MasterCreated (master_csv_path : string)
  | ErrorWritingMaster (master_csv_path : string)
  (* download_files_from_sftp *)
  | NoMatchingFiles
  | Downloading (filename : string)
  | DownloadCompleted (filename : string)
  | DeletedRemote (filename : string)
  | ErrorDeletingRemote (filename : string)
  | ErrorDownloading (filename : string)
  | ErrorSftpProcess
  (* upload_file_to_drive, upload_extracted_files *)
  | Uploaded (file_name file_id : string)
  | ErrorUploading (file_name : string)
  | SkippingIndexCsv (file : string)
  | ErrorReadingFile (file_path : string)
  | FinishedUploading (extraction_dir : string)
  (* process_zip_archive *)
  | ProcessingZip (zip_path : string)
  | ExtractionCompleted (extract_dir : string)
  | ErrorReadingHeader (file : string)
  | IndexNotFound
  | FoundIndex (index_csv_path : string)
  | MissingRequiredData (row : list string)
  | Renamed (original_file new_name : string) (sequence_appended : bool)
  | PayloadNotFound (original_file : string)
  | ErrorProcessingArchive (zip_path : string)
  (* process_all_zip_archives, main *)
  | NoZipFiles
  | StartingProcessing (zip_file : string)
  | NothingDownloaded
  | DriveInitialized
  | ProcessCompleted.

Abbreviation log := (list (level * message)).

Global Instance level_eq_dec : EqDecision level.
Proof. solve_decision. Defined.
Global Instance message_eq_dec : EqDecision message.
Proof. solve_decision. Defined.

(* ------------------------------------------------------------------ *)
(** * Strings *)
(* ------------------------------------------------------------------ *)

(** [str.lower()] on the ASCII letters; bytes outside [A-Z] are kept. *)
Definition lower_ascii (c : ascii) : ascii :=
  let n := nat_of_ascii c in
  if (65 <=? n)%nat && (n <=? 90)%nat then ascii_of_nat (n + 32) else c.

Fixpoint lower (s : string) : string :=
  match s with
  | EmptyString => EmptyString
  | String c s' => String (lower_ascii c) (lower s')
  end.

(** [needle in haystack] *)
Fixpoint contains (needle haystack : string) : bool :=
  String.prefix needle haystack ||
  match haystack with
  | EmptyString => false
  | String _ rest => contains needle rest
  end.

(** [s.endswith(suffix)] *)
Definition endswith (s suffix : string) : bool :=
  String.prefix (String.rev suffix) (String.rev s).

(** [s.rfind(c)] for a one-character [c]; [None] is Python's [-1]. *)
Fixpoint rfind (c : ascii) (s : string) : option nat :=
  match s with
  | EmptyString => None
  | String a s' =>
      match rfind c s' with
      | Some i => Some (S i)
      | None => if decide (a = c) then Some 0%nat else None
      end
  end.

(** [s.rstrip("/")] *)
Fixpoint rstrip_slash (s : string) : string :=
  match s with
  | EmptyString => EmptyString
  | String a s' =>
      match rstrip_slash s' with
      | EmptyString => if decide (a = "/"%char) then EmptyString else String a EmptyString
      | t => String a t
      end
  end.

(** [os.path.join(a, b)], [os.path.basename(p)] and [os.path.splitext(p)]
    as [posixpath] defines them. *)
Definition os_path_join (a b : string) : string :=
  if String.prefix "/" b then b
  else if decide (a = "") then b
  else if endswith a "/" then a +:+ b
  else a +:+ "/" +:+ b.

Definition os_path_basename (p : string) : string :=
  match rfind "/" p with
  | Some i => String.substring (S i) (String.length p - S i) p
  | None => p
  end.

(** The loop of [genericpath._splitext] that skips leading dots:
    is there a character other than ["."] in [p[start:dot]]? *)
Fixpoint has_non_dot (p : string) (start len : nat) : bool :=
  match len with
  | 0%nat => false
  | S len' =>
      match String.get start p with
      | Some c => if decide (c = "."%char) then has_non_dot p (S start) len' else true
      | None => false
      end
  end.

Definition os_path_splitext (p : string) : string * string :=
  match rfind "." p with
  | None => (p, "")
  | Some dotIndex =>
      let filenameIndex := match rfind "/" p with Some sepIndex => S sepIndex | None => 0%nat end in
      if has_non_dot p filenameIndex (dotIndex - filenameIndex)
      then (String.substring 0 dotIndex p,
            String.substring dotIndex (String.length p - dotIndex) p)
      else (p, "")
  end.

(** An operation either returns a value or raises. *)
Inductive outcome (A : Type) :=
  | Returned (a : A)
  | Raised.
Global Arguments Returned {A} a.
Global Arguments Raised {A}.

(* ------------------------------------------------------------------ *)
(** * [sorted(iterable, key=...)]

    Python computes the key of every element first (an exception in the
    key function aborts the call), then sorts with [<] on the keys and
    keeps elements with equal keys in their original order. *)
(* ------------------------------------------------------------------ *)

Section Sorted.
Context {A K : Type}.
Variable ltb : K → K → bool.

Fixpoint insert_stable (x : K * A) (l : list (K * A)) : list (K * A) :=
  match l with
  | [] => [x]
  | y :: l' => if ltb y.1 x.1 then y :: insert_stable x l' else x :: y :: l'
  end.

Definition sort_stable (l : list (K * A)) : list (K * A) :=
  foldr insert_stable [] l.

(** Two decorated elements are in order: the right one is not smaller. *)
Definition in_order (x y : K * A) : Prop := ltb y.1 x.1 = false.

(** A list is ascending by [key]: every element has a key, and no
    element is followed, anywhere later, by one with a smaller key. *)
Definition ascending (key : A → option K) (l : list A) : Prop :=
  StronglySorted
    (λ a b, ∃ ka kb, key a = Some ka ∧ key b = Some kb ∧ ltb kb ka = false) l
  ∧ Forall (λ a, is_Some (key a)) l.

(** [None] stands for the exception raised by the key function. *)
Definition sorted (key : A → option K) (l : list A) : option (list A) :=
  decorated ← mapM (λ x, k ← key x; Some (k, x)) l;
  Some ((sort_stable decorated).*2).
End Sorted.

(* ------------------------------------------------------------------ *)
(** * Index aggregation: [aggregate_index_csv] *)
(* ------------------------------------------------------------------ *)

(** A row as [csv.reader] returns it. *)
Abbreviation row := (list string).

(** What one index CSV gives when it is opened and iterated:
    [open] raises, or the reader yields [rows] and then either ends
    ([raises = false]) or raises while reading the next line. *)
Inductive csv_read :=
  | CannotOpen
  | Yields (rows : list row) (raises : bool).

Record agg_state := AggState {
  master_header : option row;
  master_rows : list row;
  agg_log : log
}.

Definition agg_logging (lv : level) (m : message) (st : agg_state) : agg_state :=
  AggState (master_header st) (master_rows st) (agg_log st ++ [(lv, m)]).

Definition agg_extend (rows : list row) (st : agg_state) : agg_state :=
  AggState (master_header st) (master_rows st ++ rows) (agg_log st).

(** Body of [for idx_csv in index_csv_paths], with its [try/except]. *)
Definition read_index_csv (st : agg_state) (idx : string * csv_read) : agg_state :=
  let '(idx_csv, src) := idx in
  match src with
  | CannotOpen => agg_logging ERROR (ErrorReadingIndex idx_csv) st
  | Yields [] _ =>
      (* header = next(reader) raises *)
      agg_logging ERROR (ErrorReadingIndex idx_csv) st
  | Yields (header :: rows) raises =>
      let st1 :=
        match master_header st with
        | None => AggState (Some header) (master_rows st ++ [header]) (agg_log st)
        | Some mh =>
            if decide (header ≠ mh)
            then agg_logging WARNING (HeaderMismatch idx_csv) st
            else st
        end in
      let st2 := agg_extend rows st1 in
      if raises then agg_logging ERROR (ErrorReadingIndex idx_csv) st2 else st2
  end.

(** The header and the data rows that one index CSV contributes, and
    over a list of index CSVs: the first header met and all data rows
    in reading order. *)
Definition header_of (src : csv_read) : option row :=
  match src with Yields (header :: _) _ => Some header | _ => None end.

Definition data_of (src : csv_read) : list row :=
  match src with Yields (_ :: rows) _ => rows | _ => [] end.

Fixpoint first_header (files : list (string * csv_read)) : option row :=
  match files with
  | [] => None
  | f :: rest =>
      match header_of f.2 with
      | Some header => Some header
      | None => first_header rest
      end
  end.

Definition all_data (files : list (string * csv_read)) : list row :=
  concat ((λ f, data_of f.2) <$> files).

(** [header.index(x)]; [None] is the [ValueError]. *)
Fixpoint list_index (x : string) (l : list string) : option nat :=
  match l with
  | [] => None
  | y :: l' => if decide (y = x) then Some 0 else S <$> list_index x l'
  end.

(** The sort key and Python's [<] on tuples of strings. *)
Abbreviation sort_key := (string * string * string)%type.

Definition key_compare (a b : sort_key) : comparison :=
  match String.compare a.1.1 b.1.1 with
  | Eq => match String.compare a.1.2 b.1.2 with
          | Eq => String.compare a.2 b.2
          | c => c
          end
  | c => c
  end.

Definition key_ltb (a b : sort_key) : bool :=
  match key_compare a b with Lt => true | _ => false end.

(** [a <= b] on keys is [not (b < a)]. *)
Definition key_le (a b : sort_key) : Prop := key_ltb b a = false.

(** [lambda r: (r[last_idx].lower(), r[preferred_idx].lower(),
    r[file_name_idx].lower())]; [None] is the [IndexError]. *)
Definition row_key (last_idx preferred_idx file_name_idx : nat) (r : row)
  : option sort_key :=
  a ← r !! last_idx;
  b ← r !! preferred_idx;
  c ← r !! file_name_idx;
  Some (lower a, lower b, lower c).

(** When the key cannot be computed: the header lacks one of the three
    columns, or a row has no field at the position of one of them. *)
Definition lacks_key_column (header : row) : Prop :=
  list_index "Last" header = None ∨
  list_index "Preferred" header = None ∨
  list_index "File name" header = None.

Definition too_short_for (header r : row) : Prop :=
  ∃ column i, column ∈ ["Last"; "Preferred"; "File name"] ∧
              list_index column header = Some i ∧ (length r ≤ i)%nat.

(** The body of the [try] in the sorting step. *)
Definition sort_master (header : row) (data_rows : list row) : option (list row) :=
  last_idx ← list_index "Last" header;
  preferred_idx ← list_index "Preferred" header;
  file_name_idx ← list_index "File name" header;
  data_rows_sorted ← sorted key_ltb (row_key last_idx preferred_idx file_name_idx) data_rows;
  Some (header :: data_rows_sorted).

Definition sort_step (st : agg_state) : agg_state :=
  match master_rows st with
  | header :: ((_ :: _) as data_rows) =>
      match sort_master header data_rows with
      | Some rows => AggState (master_header st) rows (agg_log st)
      | None => agg_logging ERROR ErrorSortingMaster st
      end
  | _ => st
  end.

(** Result of the call: the rows handed to the writer, the file that
    exists afterwards ([None] when opening or writing raised) and the log. *)
Record agg_result := AggResult {
  rows_out : list row;
  written : option (list row);
  log_out : log
}.

Definition aggregate_index_csv (write_ok : bool) (master_csv_path : string)
    (index_csv_paths : list (string * csv_read)) : agg_result :=
  let st := foldl read_index_csv (AggState None [] []) index_csv_paths in
  let st := sort_step st in
  if write_ok
  then AggResult (master_rows st) (Some (master_rows st))
         (agg_log st ++ [(INFO, MasterCreated master_csv_path)])
  else AggResult (master_rows st) None
         (agg_log st ++ [(ERROR, ErrorWritingMaster master_csv_path)]).

(* ------------------------------------------------------------------ *)
(** * Retrieval: [download_files_from_sftp] *)
(* ------------------------------------------------------------------ *)

(** The server and the calls made to it.  [sftp_get] and [sftp_remove]
    say, for a remote path, whether the call returns ([true]) or raises. *)
Record sftp_server := SftpServer {
  sftp_connect : bool;                    (* connect and open_sftp return *)
  sftp_listdir : option (list string);    (* [None]: listdir raises *)
  sftp_makedirs : bool;                   (* local_dir exists or can be made *)
  sftp_get : string → bool;
  sftp_remove : string → bool;
  sftp_close : bool
}.

Record sftp_state := SftpState {
  remote : gset string;            (* remote paths present on the server *)
  downloaded_files : list string;
  sftp_log : log
}.

Definition sftp_logging (lv : level) (m : message) (st : sftp_state) : sftp_state :=
  SftpState (remote st) (downloaded_files st) (sftp_log st ++ [(lv, m)]).

Definition remote_file_path (remote_path filename : string) : string :=
  rstrip_slash remote_path +:+ "/" +:+ filename.

Definition local_file_path (local_dir filename : string) : string :=
  os_path_join local_dir filename.

(** Body of [for filename in matching_files]. *)
Definition download_one (srv : sftp_server) (remote_path local_dir : string)
    (st : sftp_state) (filename : string) : sftp_state :=
  let remote_file_path := remote_file_path remote_path filename in
  let local_file_path := local_file_path local_dir filename in
  let st := sftp_logging INFO (Downloading filename) st in
  if sftp_get srv remote_file_path then
    let st := sftp_logging INFO (DownloadCompleted filename) st in
    let st := SftpState (remote st) (downloaded_files st ++ [local_file_path]) (sftp_log st) in
    if sftp_remove srv remote_file_path then
      let st := SftpState (remote st ∖ {[remote_file_path]}) (downloaded_files st) (sftp_log st) in
      sftp_logging INFO (DeletedRemote filename) st
    else sftp_logging ERROR (ErrorDeletingRemote filename) st
  else sftp_logging ERROR (ErrorDownloading filename) st.

(** [filename_mask] is the predicate [re.fullmatch(filename_mask, f)]. *)
Definition download_files_from_sftp (srv : sftp_server)
    (remote_path local_dir : string) (filename_mask : string → bool)
    (st : sftp_state) : sftp_state :=
  if negb (sftp_connect srv) then sftp_logging ERROR ErrorSftpProcess st else
  match sftp_listdir srv with
  | None => sftp_logging ERROR ErrorSftpProcess st
  | Some files =>
      let matching_files := filter (λ f, filename_mask f = true) files in
      match matching_files with
      | [] =>
          let st := sftp_logging ERROR NoMatchingFiles st in
          if sftp_close srv then st else sftp_logging ERROR ErrorSftpProcess st
      | _ =>
          if negb (sftp_makedirs srv) then sftp_logging ERROR ErrorSftpProcess st else
          let st := foldl (download_one srv remote_path local_dir) st matching_files in
          if sftp_close srv then st else sftp_logging ERROR ErrorSftpProcess st
      end
  end.

(* ------------------------------------------------------------------ *)
(** * Files and directories *)
(* ------------------------------------------------------------------ *)

(** What the script can observe of a file's content: the first line read
    from the binary stream and decoded ([readline().decode('utf-8')]), the
    first line read in text mode ([open(..., 'r', encoding='utf-8')] then
    [readline()]), and the rows a [csv] reader gives.  [None] stands for
    the exception of the read. *)
Record contents := Contents {
  binary_first_line : option string;
  text_first_line : option string;
  csv_rows : csv_read
}.

Inductive node :=
  | Dir
  | Regular (f : contents).

(** An extraction directory: the names in it ([os.listdir]) with what
    they name.  [os.path.exists(os.path.join(dir, name))] is
    [is_Some (d !! name)]. *)
Abbreviation directory := (gmap string node).

Definition exists_in (d : directory) (name : string) : bool :=
  bool_decide (is_Some (d !! name)).

Definition isfile (n : node) : bool :=
  match n with Regular _ => true | Dir => false end.

(* ------------------------------------------------------------------ *)
(** * Upload: [upload_file_to_drive], [upload_extracted_files] *)
(* ------------------------------------------------------------------ *)

(** What happens when a local path is uploaded: [MediaFileUpload] raises
    (it opens the file, outside the [try]), the API call raises, or the
    API returns a file id. *)
Inductive upload_outcome :=
  | MediaRaises
  | ApiRaises
  | FileId (id : string).

Record drive_state := DriveState {
  upload_calls : list string;      (* arguments of upload_file_to_drive so far *)
  drive_log : log
}.

Definition drive_logging (lv : level) (m : message) (st : drive_state) : drive_state :=
  DriveState (upload_calls st) (drive_log st ++ [(lv, m)]).

Definition upload_file_to_drive (drive : string → upload_outcome)
    (local_file : string) (st : drive_state) : outcome (option string) * drive_state :=
  let file_name := os_path_basename local_file in
  let st := DriveState (upload_calls st ++ [local_file]) (drive_log st) in
  match drive local_file with
  | MediaRaises => (Raised, st)
  | FileId file_id => (Returned (Some file_id), drive_logging INFO (Uploaded file_name file_id) st)
  | ApiRaises => (Returned None, drive_logging ERROR (ErrorUploading file_name) st)
  end.

(** Does the index-CSV test of the upload loop reach [continue]? *)
Definition is_index_csv (file : string) (f : contents) : bool :=
  endswith (lower file) ".csv" &&
  match text_first_line f with
  | Some first_line => contains "File name" first_line
  | None => false
  end.

(** The entries of a listing that the loop passes to
    [upload_file_to_drive]: regular files that are not held for an index
    CSV. *)
Definition uploadable (entry : string * node) : bool :=
  match entry.2 with
  | Regular f => negb (is_index_csv entry.1 f)
  | Dir => false
  end.

(** Body of [for file in os.listdir(extraction_dir)]; [Raised] leaves
    the loop and the function. *)
Definition upload_one (drive : string → upload_outcome) (extraction_dir : string)
    (entry : string * node) (st : drive_state) : outcome unit * drive_state :=
  let '(file, n) := entry in
  let file_path := os_path_join extraction_dir file in
  match n with
  | Dir => (Returned (), st)
  | Regular f =>
      let upload st :=
        match upload_file_to_drive drive file_path st with
        | (Returned _, st) => (Returned (), st)
        | (Raised, st) => (Raised, st)
        end in
      if endswith (lower file) ".csv" then
        match text_first_line f with
        | Some first_line =>
            if contains "File name" first_line
            then (Returned (), drive_logging INFO (SkippingIndexCsv file) st)
            else upload st
        | None => upload (drive_logging ERROR (ErrorReadingFile file_path) st)
        end
      else upload st
  end.

Fixpoint upload_loop (drive : string → upload_outcome) (extraction_dir : string)
    (listing : list (string * node)) (st : drive_state) : outcome unit * drive_state :=
  match listing with
  | [] => (Returned (), st)
  | entry :: rest =>
      match upload_one drive extraction_dir entry st with
      | (Returned _, st) => upload_loop drive extraction_dir rest st
      | (Raised, st) => (Raised, st)
      end
  end.

(** [listing] is [os.listdir(extraction_dir)] with what each name names;
    [None] when [os.listdir] raises. *)
Definition upload_extracted_files (drive : string → upload_outcome)
    (extraction_dir : string) (listing : option (list (string * node)))
    (st : drive_state) : outcome unit * drive_state :=
  match listing with
  | None => (Raised, st)
  | Some l =>
      match upload_loop drive extraction_dir l st with
      | (Returned _, st) => (Returned (), drive_logging INFO (FinishedUploading extraction_dir) st)
      | (Raised, st) => (Raised, st)
      end
  end.

(** The log entry that [upload_file_to_drive] writes for [local_file]
    once [MediaFileUpload] has opened it. *)
Definition upload_entry (drive : string → upload_outcome) (local_file : string)
  : level * message :=
  match drive local_file with
  | FileId file_id => (INFO, Uploaded (os_path_basename local_file) file_id)
  | _ => (ERROR, ErrorUploading (os_path_basename local_file))
  end.

(* ------------------------------------------------------------------ *)
(** * Archives: [process_zip_archive] *)
(* ------------------------------------------------------------------ *)

(** A member of the archive, in [namelist()] order (an archive holds each
    name once).  [entry_opens = false]: [zip_ref.open(name)] raises. *)
Record zip_entry := ZipEntry {
  entry_name : string;
  entry_opens : bool;
  entry_contents : contents
}.

(** [extract_fails_after = Some n]: opening the archive or [extractall]
    raises after [n] members were written; [None]: extraction completes. *)
Record zip_archive := ZipArchive {
  extract_fails_after : option nat;
  namelist : list zip_entry
}.

Definition extractall (entries : list zip_entry) (d : directory) : directory :=
  foldl (λ d e, <[entry_name e := Regular (entry_contents e)]> d) d entries.

(** The scan for the index CSV.  [Raised]: an exception that only the
    outer [try] of [process_zip_archive] catches. *)
Fixpoint find_index_csv (entries : list zip_entry) (lg : log)
  : outcome (option string) * log :=
  match entries with
  | [] => (Returned None, lg)
  | e :: rest =>
      let file := entry_name e in
      if endswith (lower file) ".csv" then
        if negb (entry_opens e) then (Raised, lg) else
        match binary_first_line (entry_contents e) with
        | None => find_index_csv rest (lg ++ [(ERROR, ErrorReadingHeader file)])
        | Some header_line =>
            if contains "File name" header_line
            then (Returned (Some file), lg)
            else find_index_csv rest lg
        end
      else find_index_csv rest lg
  end.

(** The test that the scan applies to a member: a name that ends in
    ".csv" whatever the case, and a first line that decodes and contains
    "File name". *)
Definition qualifies (e : zip_entry) : bool :=
  endswith (lower (entry_name e)) ".csv" &&
  match binary_first_line (entry_contents e) with
  | Some header_line => contains "File name" header_line
  | None => false
  end.

(** [l.index(x)] from the right. *)
Fixpoint list_rindex (x : string) (l : list string) : option nat :=
  match l with
  | [] => None
  | y :: l' =>
      match list_rindex x l' with
      | Some i => Some (S i)
      | None => if decide (y = x) then Some 0%nat else None
      end
  end.

(** [row.get(key)] on the dict that [csv.DictReader] builds from
    [dict(zip(fieldnames, row))], missing trailing fields being [None]. *)
Definition dict_get (fieldnames : list string) (r : row) (key : string)
  : option string :=
  i ← list_rindex key fieldnames; r !! i.

(** [v] when it is truthy: a string that is not empty. *)
Definition truthy (v : option string) : option string :=
  match v with
  | Some s => if bool_decide (s = "") then None else Some s
  | None => None
  end.

(** The fields that [not (original_file and first and last)] tests;
    [None] when the row is skipped. *)
Definition required_fields (fieldnames : list string) (r : row)
  : option (string * string * string) :=
  original_file ← truthy (dict_get fieldnames r "File name");
  first ← truthy (dict_get fieldnames r "Preferred");
  last ← truthy (dict_get fieldnames r "Last");
  Some (original_file, first, last).

(** [if not ic_id: ic_id = "not admitted yet"] *)
Definition resolve_ic_id (ic_id : option string) : string :=
  match truthy ic_id with
  | Some s => s
  | None => "not admitted yet"
  end.

(** The two f-strings of the renamer. *)
Definition new_filename (last first ic_id ext : string) : string :=
  last +:+ ", " +:+ first +:+ " - " +:+ ic_id +:+ ext.

Definition candidate_filename (last first ic_id ext : string) (counter : nat) : string :=
  last +:+ ", " +:+ first +:+ " - " +:+ ic_id +:+ " (" +:+ pretty counter +:+ ")" +:+ ext.

(** [while os.path.exists(candidate_path): ...], as a loop of at most
    [fuel] iterations; [while_exists_exits] below shows that
    [S (size d)] iterations always reach the exit of the loop. *)
Fixpoint while_exists (d : directory) (mk : nat → string) (fuel : nat)
    (candidate : string) (counter : nat) : string * nat :=
  if exists_in d candidate then
    match fuel with
    | 0%nat => (candidate, counter)
    | S fuel' => while_exists d mk fuel' (mk counter) (S counter)
    end
  else (candidate, counter).

(** Body of [for row in reader], for a non-empty row of the reader.
    [rename_ok src dst = false]: [os.rename] raises. *)
Definition rename_row (rename_ok : string → string → bool)
    (fieldnames : list string) (r : row) (st : directory * log)
  : outcome unit * (directory * log) :=
  let '(d, lg) := st in
  match required_fields fieldnames r with
  | None => (Returned (), (d, lg ++ [(WARNING, MissingRequiredData r)]))
  | Some (original_file, first, last) =>
      let ic_id := resolve_ic_id (dict_get fieldnames r "IC ID Number") in
      let ext := (os_path_splitext original_file).2 in
      let '(candidate, counter) :=
        while_exists d (candidate_filename last first ic_id ext) (S (size d))
          (new_filename last first ic_id ext) 1 in
      match d !! original_file with
      | Some n =>
          if rename_ok original_file candidate
          then (Returned (),
                (<[candidate := n]> (delete original_file d),
                 lg ++ [(INFO, Renamed original_file candidate (bool_decide (1 < counter)))]))
          else (Raised, (d, lg))
      | None => (Returned (), (d, lg ++ [(ERROR, PayloadNotFound original_file)]))
      end
  end.

(** The payload files that the rows name, for the rows that are not
    skipped. *)
Definition originals (fieldnames : list string) (rows : list row) : list string :=
  omap (λ r, (λ t, t.1.1) <$> required_fields fieldnames r) rows.

(** [c] is a name the renamer may give for row [r]: the bare target or
    the target with a suffix [" (k)"], [k >= 1], before the extension. *)
Definition name_for (fieldnames : list string) (r : row) (c : string) : Prop :=
  ∃ original_file first last,
    required_fields fieldnames r = Some (original_file, first, last) ∧
    let ic_id := resolve_ic_id (dict_get fieldnames r "IC ID Number") in
    let ext := (os_path_splitext original_file).2 in
    c = new_filename last first ic_id ext ∨
    ∃ k, 1 ≤ k ∧ c = candidate_filename last first ic_id ext k.

(** The names in the order in which the loop tries them: the bare
    target, then the suffixes 1, 2, ... *)
Definition nth_name (last first ic_id ext : string) (j : nat) : string :=
  match j with
  | 0 => new_filename last first ic_id ext
  | S _ => candidate_filename last first ic_id ext j
  end.

(** The directory holds exactly the first [j] names of that sequence. *)
Definition holds_first (last first ic_id ext : string) (d : directory) (j : nat) : Prop :=
  ∀ i, is_Some (d !! nth_name last first ic_id ext i) ↔ i < j.

(** Row [r] is complete and maps to the target made of [last], [first],
    [ic_id] and [ext]. *)
Definition maps_to (fieldnames : list string) (last first ic_id ext : string)
    (r : row) : Prop :=
  ∃ original_file,
    required_fields fieldnames r = Some (original_file, first, last) ∧
    resolve_ic_id (dict_get fieldnames r "IC ID Number") = ic_id ∧
    (os_path_splitext original_file).2 = ext.

(** The log entry that a non-empty row of the index leaves: a warning
    for an incomplete row; for a complete row, an error when its payload
    file is not there, or the renaming to one of the row's names, marked
    "sequence appended" when that is not the bare target. *)
Definition row_entry (fieldnames : list string) (r : row)
    (e : level * message) : Prop :=
  match required_fields fieldnames r with
  | None => e = (WARNING, MissingRequiredData r)
  | Some (original_file, first, last) =>
      let ic_id := resolve_ic_id (dict_get fieldnames r "IC ID Number") in
      let ext := (os_path_splitext original_file).2 in
      e = (ERROR, PayloadNotFound original_file) ∨
      ∃ c, e = (INFO, Renamed original_file c
                        (negb (bool_decide (c = new_filename last first ic_id ext))))
           ∧ name_for fieldnames r c
  end.

(** The names that the log says were given, in order. *)
Definition renamed_to (lg : log) : list (string * string) :=
  omap (λ e, match e.2 with
             | Renamed original_file new_name _ => Some (original_file, new_name)
             | _ => None
             end) lg.

(** [for row in reader] over the rows that [csv.reader] yields after the
    header; [DictReader] passes over empty rows. *)
Fixpoint rename_rows (rename_ok : string → string → bool)
    (fieldnames : list string) (rows : list row) (st : directory * log)
  : outcome unit * (directory * log) :=
  match rows with
  | [] => (Returned (), st)
  | [] :: rest => rename_rows rename_ok fieldnames rest st
  | r :: rest =>
      match rename_row rename_ok fieldnames r st with
      | (Returned _, st) => rename_rows rename_ok fieldnames rest st
      | (Raised, st) => (Raised, st)
      end
  end.

(** Opening the index CSV and iterating the [DictReader]. *)
Definition rename_from_index (rename_ok : string → string → bool)
    (index_csv_filename : string) (st : directory * log)
  : outcome unit * (directory * log) :=
  match st.1 !! index_csv_filename with
  | Some (Regular f) =>
      match csv_rows f with
      | CannotOpen => (Raised, st)
      | Yields [] raises => (if raises then Raised else Returned (), st)
      | Yields (fieldnames :: rows) raises =>
          match rename_rows rename_ok fieldnames rows st with
          | (Returned _, st) => (if raises then Raised else Returned (), st)
          | (Raised, st) => (Raised, st)
          end
      end
  | _ => (Raised, st)
  end.

(** Returns [index_csv_path], the directory afterwards and the log. *)
Definition process_zip_archive (rename_ok : string → string → bool)
    (zip_path extract_dir : string) (z : zip_archive) (d : directory)
  : option string * directory * log :=
  let lg := [(INFO, ProcessingZip zip_path)] in
  match extract_fails_after z with
  | Some n =>
      (None, extractall (take n (namelist z)) d,
       lg ++ [(ERROR, ErrorProcessingArchive zip_path)])
  | None =>
      let d := extractall (namelist z) d in
      let lg := lg ++ [(INFO, ExtractionCompleted extract_dir)] in
      match find_index_csv (namelist z) lg with
      | (Raised, lg) => (None, d, lg ++ [(ERROR, ErrorProcessingArchive zip_path)])
      | (Returned None, lg) => (None, d, lg ++ [(ERROR, IndexNotFound)])
      | (Returned (Some index_csv_filename), lg) =>
          let index_csv_path := os_path_join extract_dir index_csv_filename in
          let lg := lg ++ [(INFO, FoundIndex index_csv_path)] in
          match rename_from_index rename_ok index_csv_filename (d, lg) with
          | (Returned _, (d, lg)) => (Some index_csv_path, d, lg)
          | (Raised, (d, lg)) =>
              (Some index_csv_path, d, lg ++ [(ERROR, ErrorProcessingArchive zip_path)])
          end
      end
  end.

(* ------------------------------------------------------------------ *)
(** * [process_all_zip_archives] *)
(* ------------------------------------------------------------------ *)

(** One ZIP file that [glob] finds in the input directory, with the
    state of its extraction directory and of the calls made for it. *)
Record archive_world := ArchiveWorld {
  zip_file : string;
  archive : zip_archive;
  extraction_dir_before : option directory;  (* [None]: does not exist yet *)
  makedirs_ok : bool;                        (* os.makedirs returns *)
  rename_ok : string → string → bool;
  listdir_ok : bool                          (* os.listdir returns *)
}.

(** [extraction_dir] as the loop of [process_all_zip_archives] builds it. *)
Definition extraction_dir_of (extraction_base_dir zip_file : string) : string :=
  let zip_basename := (os_path_splitext (os_path_basename zip_file)).1 in
  os_path_join extraction_base_dir zip_basename.

(** What opening [index_csv_path] gives once the archive is processed. *)
Definition index_csv_read (z : zip_archive) (d : directory) : csv_read :=
  match find_index_csv (namelist z) [] with
  | (Returned (Some index_csv_filename), _) =>
      match d !! index_csv_filename with
      | Some (Regular f) => csv_rows f
      | _ => CannotOpen
      end
  | _ => CannotOpen
  end.

Record batch_state := BatchState {
  index_csv_list : list (string * csv_read);
  drive : drive_state
}.

(** Body of [for zip_file in zip_files]. *)
Definition process_one_zip (drv : string → upload_outcome)
    (extraction_base_dir : string) (w : archive_world) (st : batch_state)
  : outcome unit * batch_state :=
  let extraction_dir := extraction_dir_of extraction_base_dir (zip_file w) in
  match extraction_dir_before w, makedirs_ok w with
  | None, false => (Raised, st)
  | before, _ =>
      let d := default ∅ before in
      let ds := drive_logging INFO (StartingProcessing (zip_file w)) (drive st) in
      let '(idx_csv_path, d, lg) :=
        process_zip_archive (rename_ok w) (zip_file w) extraction_dir (archive w) d in
      let ds := DriveState (upload_calls ds) (drive_log ds ++ lg) in
      let index_csv_list :=
        match idx_csv_path with
        | Some p => index_csv_list st ++ [(p, index_csv_read (archive w) d)]
        | None => index_csv_list st
        end in
      let listing := if listdir_ok w then Some (map_to_list d) else None in
      match upload_extracted_files drv extraction_dir listing ds with
      | (Returned _, ds) => (Returned (), BatchState index_csv_list ds)
      | (Raised, ds) => (Raised, BatchState index_csv_list ds)
      end
  end.

Fixpoint process_zip_loop (drv : string → upload_outcome)
    (extraction_base_dir : string) (zip_files : list archive_world)
    (st : batch_state) : outcome unit * batch_state :=
  match zip_files with
  | [] => (Returned (), st)
  | w :: rest =>
      match process_one_zip drv extraction_base_dir w st with
      | (Returned _, st) => process_zip_loop drv extraction_base_dir rest st
      | (Raised, st) => (Raised, st)
      end
  end.

(** [zip_files] is the result of [glob.glob(input_dir/*.zip)]. *)
Definition process_all_zip_archives (drv : string → upload_outcome)
    (extraction_base_dir : string) (zip_files : list archive_world)
    (ds : drive_state) : outcome (list (string * csv_read)) * drive_state :=
  match zip_files with
  | [] => (Returned [], drive_logging ERROR NoZipFiles ds)
  | _ =>
      match process_zip_loop drv extraction_base_dir zip_files (BatchState [] ds) with
      | (Returned _, st) => (Returned (index_csv_list st), drive st)
      | (Raised, st) => (Raised, drive st)
      end
  end.

(** [idx_csv_path] in the loop of [process_all_zip_archives]: what
    [process_zip_archive] returns for the archive. *)
Definition idx_csv_path_of (extraction_base_dir : string) (w : archive_world)
  : option string :=
  (process_zip_archive (rename_ok w) (zip_file w)
     (extraction_dir_of extraction_base_dir (zip_file w)) (archive w)
     (default ∅ (extraction_dir_before w))).1.1.

(* ------------------------------------------------------------------ *)
(** * The script: [__main__] *)
(* ------------------------------------------------------------------ *)

Definition SFTP_REMOTE_PATH := "/remote/path".
Definition SFTP_DOWNLOAD_DIR := "C:\path\to\sftp_download".
Definition EXTRACTION_BASE_DIR := "C:\path\to\your\temp_extraction".
Definition CONSOLIDATED_DIR := "C:\path\to\consolidated".

(** Everything outside the script that one run meets. *)
Record world := World {
  server : sftp_server;
  remote_before : gset string;
  filename_mask : string → bool;
  init_drive_ok : bool;                 (* init_drive_service returns *)
  zip_files : list archive_world;       (* glob over SFTP_DOWNLOAD_DIR *)
  drive_api : string → upload_outcome;
  consolidated_ok : bool;               (* CONSOLIDATED_DIR exists or can be made *)
  write_ok : bool;                      (* the master CSV can be written *)
  timestamp : string;
  cleanup_ok : bool                     (* cleanup_local_files returns *)
}.

(** The calls of the per-archive loop that no [try] encloses return:
    the extraction directory exists or can be made, and it can be
    listed. *)
Definition unguarded_calls_return (w : archive_world) : Prop :=
  (is_Some (extraction_dir_before w) ∨ makedirs_ok w = true) ∧ listdir_ok w = true.

(** How the interpreter ends: falls off the end of the script, [exit(n)],
    or an uncaught exception. *)
Inductive termination :=
  | Completed
  | SysExit (code : nat)
  | Traceback.

Definition exit_code (t : termination) : nat :=
  match t with
  | Completed => 0
  | SysExit code => code
  | Traceback => 1
  end.

Record run := Run {
  ending : termination;
  remote_after : gset string;
  uploads : list string;               (* every call of upload_file_to_drive *)
  master_csv : option (string * list row);   (* the master CSV written *)
  cleaned : bool;
  run_log : log
}.

Definition master_csv_path_of (timestamp : string) : string :=
  os_path_join CONSOLIDATED_DIR ("photos_uploaded-" +:+ timestamp +:+ ".csv").

Definition main (w : world) : run :=
  (* Step 1 *)
  let s := download_files_from_sftp (server w) SFTP_REMOTE_PATH SFTP_DOWNLOAD_DIR
             (filename_mask w) (SftpState (remote_before w) [] []) in
  match downloaded_files s with
  | [] => Run (SysExit 1) (remote s) [] None false (sftp_log s ++ [(ERROR, NothingDownloaded)])
  | _ =>
      (* Step 2 *)
      if negb (init_drive_ok w) then Run Traceback (remote s) [] None false (sftp_log s) else
      let ds := DriveState [] (sftp_log s ++ [(INFO, DriveInitialized)]) in
      (* Step 3 *)
      match process_all_zip_archives (drive_api w) EXTRACTION_BASE_DIR (zip_files w) ds with
      | (Raised, ds) => Run Traceback (remote s) (upload_calls ds) None false (drive_log ds)
      | (Returned index_csv_files, ds) =>
          (* Step 4 *)
          if negb (consolidated_ok w)
          then Run Traceback (remote s) (upload_calls ds) None false (drive_log ds) else
          let master_csv_path := master_csv_path_of (timestamp w) in
          let a := aggregate_index_csv (write_ok w) master_csv_path index_csv_files in
          let ds := DriveState (upload_calls ds) (drive_log ds ++ log_out a) in
          let master := (λ rows, (master_csv_path, rows)) <$> written a in
          (* Step 5 *)
          match upload_file_to_drive (drive_api w) master_csv_path ds with
          | (Raised, ds) => Run Traceback (remote s) (upload_calls ds) master false (drive_log ds)
          | (Returned _, ds) =>
              let ds := drive_logging INFO ProcessCompleted ds in
              (* Step 6 *)
              if cleanup_ok w
              then Run Completed (remote s) (upload_calls ds) master true (drive_log ds)
              else Run Traceback (remote s) (upload_calls ds) master false (drive_log ds)
          end
      end
  end.

(* ------------------------------------------------------------------ *)
(** * Cleanup: [cleanup_directory], [cleanup_local_files] *)
(* ------------------------------------------------------------------ *)

(** What [os.path.isfile], [os.path.islink] and [os.path.isdir] tell of a
    name: a regular file (or a link to one), another symbolic link, a
    directory, or none of these. *)
Inductive kind := KFile | KLink | KDir | KOther.

Global Instance kind_eq_dec : EqDecision kind.
Proof. solve_decision. Defined.

Inductive cleanup_message :=
  | PreservingLogFile (file_path : string)
  | DeletedFile (file_path : string)
  | DeletedDirectory (file_path : string)
  | FailedToDelete (file_path : string)
  | StartingCleanup
  | DeletedStagingDir (dir : string)
  | FailedToDeleteStagingDir (dir : string)
  | CleanupCompleted.

Abbreviation cleanup_log := (list (level * cleanup_message)).

(** [filename.startswith("log-") and filename.endswith(".log")] *)
Definition is_log_file (filename : string) : bool :=
  String.prefix "log-" filename && endswith filename ".log".

(** Body of [for filename in os.listdir(directory)].  [remove_ok name]:
    [os.unlink], or [shutil.rmtree], of that name returns. *)
Definition cleanup_entry (remove_ok : string → bool) (directory : string)
    (st : gmap string kind * cleanup_log) (entry : string * kind)
  : gmap string kind * cleanup_log :=
  let '(d, lg) := st in
  let '(filename, k) := entry in
  let file_path := os_path_join directory filename in
  if is_log_file filename then (d, lg ++ [(INFO, PreservingLogFile file_path)])
  else
    match k with
    | KFile | KLink =>
        if remove_ok filename
        then (delete filename d, lg ++ [(INFO, DeletedFile file_path)])
        else (d, lg ++ [(ERROR, FailedToDelete file_path)])
    | KDir =>
        if remove_ok filename
        then (delete filename d, lg ++ [(INFO, DeletedDirectory file_path)])
        else (d, lg ++ [(ERROR, FailedToDelete file_path)])
    | KOther => (d, lg)
    end.

(** [contents = None]: the directory does not exist.  [listdir_ok]:
    [os.listdir] returns; no [try] encloses it. *)
Definition cleanup_directory (remove_ok : string → bool) (listdir_ok : bool)
    (directory : string) (contents : option (gmap string kind)) (lg : cleanup_log)
  : outcome unit * (option (gmap string kind) * cleanup_log) :=
  match contents with
  | None => (Returned (), (None, lg))
  | Some d =>
      if listdir_ok then
        let '(d', lg') := foldl (cleanup_entry remove_ok directory) (d, lg) (map_to_list d) in
        (Returned (), (Some d', lg'))
      else (Raised, (Some d, lg))
  end.

(** The three directories that [cleanup_local_files] works on. *)
Record staging := Staging {
  download_dir_exists : bool;
  extraction_dir_exists : bool;
  consolidated : option (gmap string kind)
}.

(** [rmtree_ok dir]: [shutil.rmtree(dir)] returns. *)
Definition cleanup_local_files (rmtree_ok : string → bool)
    (remove_ok : string → bool) (listdir_ok : bool) (fs : staging)
  : outcome unit * (staging * cleanup_log) :=
  let lg := [(INFO, StartingCleanup)] in
  let '(download, lg) :=
    if download_dir_exists fs then
      if rmtree_ok SFTP_DOWNLOAD_DIR
      then (false, lg ++ [(INFO, DeletedStagingDir SFTP_DOWNLOAD_DIR)])
      else (true, lg ++ [(ERROR, FailedToDeleteStagingDir SFTP_DOWNLOAD_DIR)])
    else (false, lg) in
  let '(extraction, lg) :=
    if extraction_dir_exists fs then
      if rmtree_ok EXTRACTION_BASE_DIR
      then (false, lg ++ [(INFO, DeletedStagingDir EXTRACTION_BASE_DIR)])
      else (true, lg ++ [(ERROR, FailedToDeleteStagingDir EXTRACTION_BASE_DIR)])
    else (false, lg) in
  match cleanup_directory remove_ok listdir_ok CONSOLIDATED_DIR (consolidated fs) lg with
  | (Returned _, (c, lg)) =>
      (Returned (), (Staging download extraction c, lg ++ [(INFO, CleanupCompleted)]))
  | (Raised, (c, lg)) => (Raised, (Staging download extraction c, lg))
  end.

(** What [cleanup_directory] leaves in place: log files, names that are
    neither file, link nor directory, and what could not be removed. *)
Definition kept (remove_ok : string → bool) (filename : string) (k : kind) : bool :=
  is_log_file filename || bool_decide (k = KOther) || negb (remove_ok filename).

(* ------------------------------------------------------------------ *)
(** * Sample inputs *)
(* ------------------------------------------------------------------ *)

Module Sample.
Definition header : row := ["File name"; "Preferred"; "Last"; "IC ID Number"].

(** Two index CSVs with the same header, 3 + 2 rows. *)
Definition index_a : csv_read :=
  Yields [header;
          ["photo1.jpg"; "Ann"; "Smith"; "12345"];
          ["photo2.jpg"; "Bob"; "Jones"; "777"];
          ["photo3.jpg"; "ann"; "smith"; ""]] false.

Definition index_b : csv_read :=
  Yields [header;
          ["photo4.jpg"; "Cy"; "Adams"; "9"];
          ["photo5.jpg"; "Al"; "jones"; "10"]] false.

Definition two_indexes : list (string * csv_read) :=
  [("x/a/index.csv", index_a); ("x/b/index.csv", index_b)].

(** An index CSV whose last row has a single field. *)
Definition index_short : csv_read :=
  Yields [header;
          ["photo1.jpg"; "Ann"; "Smith"; "12345"];
          ["photo2.jpg"; "Bob"; "Jones"; "777"];
          ["photo3.jpg"]] false.

(** A server with three matching archives: the fetch of the second
    raises, the delete of the third raises. *)
Definition mask (f : string) : bool := String.prefix "datafile_" f.

Definition server : sftp_server :=
  SftpServer true
    (Some ["datafile_1.zip"; "notes.txt"; "datafile_2.zip"; "datafile_3.zip"])
    true
    (λ p, negb (bool_decide (p = "/remote/path/datafile_2.zip")))
    (λ p, negb (bool_decide (p = "/remote/path/datafile_3.zip")))
    true.

Definition remote_files : gset string :=
  {[ "/remote/path/datafile_1.zip"; "/remote/path/notes.txt";
     "/remote/path/datafile_2.zip"; "/remote/path/datafile_3.zip" ]}.

(** A server that cannot be reached, and a run against it. *)
Definition server_down : sftp_server :=
  SftpServer false (Some ["datafile_1.zip"]) true (λ _, true) (λ _, true) true.

(** Directories and index rows for the renamer. *)
Definition payload : node := Regular (Contents None None CannotOpen).

Definition three_photos : directory :=
  {[ "photo1.jpg" := payload; "photo2.jpg" := payload; "photo3.jpg" := payload ]}.

Definition same_person : list row :=
  [["photo1.jpg"; "Ann"; "Smith"; "12345"];
   ["photo2.jpg"; "Ann"; "Smith"; "12345"];
   ["photo3.jpg"; "Ann"; "Smith"; "12345"]].

(** Scenarios 1 and 2 of the specification: one photo and an index
    with one row, with and without an IC ID Number. *)
Definition index_of_rows (rows : list row) : contents :=
  Contents (Some "File name,Preferred,Last,IC ID Number")
           (Some "File name,Preferred,Last,IC ID Number")
           (Yields (header :: rows) false).

Definition archive_of_rows (rows : list row) : zip_archive :=
  ZipArchive None
    [ZipEntry "photo1.jpg" true (Contents None None CannotOpen);
     ZipEntry "index.csv" true (index_of_rows rows)].

(** An archive whose only member with the header line "File name,..."
    is not named "*.csv". *)
Definition archive_index_txt : zip_archive :=
  ZipArchive None
    [ZipEntry "photo1.jpg" true (Contents None None CannotOpen);
     ZipEntry "index.txt" true
       (index_of_rows [["photo1.jpg"; "Ann"; "Smith"; "12345"]])].

(** An archive with an index CSV and a second CSV that looks like one. *)
Definition archive_two_csv : zip_archive :=
  ZipArchive None
    [ZipEntry "photo1.jpg" true (Contents None None CannotOpen);
     ZipEntry "index.csv" true
       (index_of_rows [["photo1.jpg"; "Ann"; "Smith"; "12345"]]);
     ZipEntry "Report.CSV" true (index_of_rows [])].

(** What [os.listdir] gives after [archive_two_csv] was processed, and
    a Drive that takes every upload. *)
Definition listing_two_csv : list (string * node) :=
  [("Smith, Ann - 12345.jpg", payload);
   ("index.csv", Regular (index_of_rows [["photo1.jpg"; "Ann"; "Smith"; "12345"]]));
   ("Report.CSV", Regular (index_of_rows []));
   ("notes.csv", Regular (Contents (Some "a,b") (Some "a,b") (Yields [["a"; "b"]] false)));
   ("sub", Dir)].

Definition drive_ok (local_file : string) : upload_outcome := FileId ("id:" +:+ local_file).

(** Worlds for a whole run.  In [world_bad_archives] the first archive
    cannot be read, the second has an index with an incomplete row and a
    row for a missing file, a rename raises and the Drive API refuses
    every upload.  In [world_makedirs_fails] the extraction directory of
    the only archive cannot be made. *)
Definition bad_archives : list archive_world :=
  [ArchiveWorld "in/datafile_1.zip" (ZipArchive (Some 0) []) None true
     (λ _ _, true) true;
   ArchiveWorld "in/datafile_3.zip"
     (archive_of_rows [["photo1.jpg"; ""; "Smith"; "1"];
                       ["missing.jpg"; "Bob"; "Jones"; "2"];
                       ["photo1.jpg"; "Ann"; "Smith"; "3"]])
     None true (λ _ _, false) true].

Definition world_bad_archives : world :=
  World server remote_files mask true bad_archives (λ _, ApiRaises)
    true true "20250101T0000" true.

Definition world_makedirs_fails : world :=
  World server remote_files mask true
    [ArchiveWorld "in/datafile_1.zip"
       (archive_of_rows [["photo1.jpg"; "Ann"; "Smith"; "12345"]])
       None false (λ _ _, true) true]
    drive_ok true true "20250101T0000" true.

Definition world_nothing_to_fetch : world :=
  World (SftpServer true (Some ["notes.txt"]) true (λ _, true) (λ _, true) true)
    remote_files mask true [] drive_ok true true "20250101T0000" true.

Definition world_server_down : world :=
  World server_down remote_files mask true [] drive_ok true true "20250101T0000" true.

(** The target name of the only row is already the name of a file. *)
Definition target_taken : directory :=
  {[ "a.jpg" := payload; "Smith, Ann - 1.jpg" := payload ]}.

(** The first and third row name the same file. *)
Definition reused_file : directory :=
  {[ "Smith, Ann - 1.jpg" := payload; "a.jpg" := payload; "b.jpg" := payload ]}.

Definition reused_rows : list row :=
  [["Smith, Ann - 1.jpg"; "Bo"; "Tran"; "2"];
   ["a.jpg"; "Ann"; "Smith"; "1"];
   ["Smith, Ann - 1.jpg"; "Cy"; "Uber"; "3"];
   ["b.jpg"; "Ann"; "Smith"; "1"]].

(** An index CSV with a header that lacks the key columns and no rows,
    and one with another header. *)
Definition index_header_only : csv_read := Yields [["A"; "B"]] false.

(** Rows in ascending key order, two of them with the same key. *)
Definition ascending_rows : list row :=
  [["photo4.jpg"; "Cy"; "Adams"; "9"];
   ["photo1.jpg"; "Ann"; "Smith"; "12345"];
   ["PHOTO1.JPG"; "ANN"; "SMITH"; "99"];
   ["photo1.jpg"; "ann"; "smith"; ""];
   ["photo3.jpg"; "Ann"; "Smith"; "12345"]].

Definition index_other_header : csv_read :=
  Yields [["Last"; "Preferred"; "File name"];
          ["Young"; "Zoe"; "photo6.jpg"]] false.

(** A run that fetches archives but finds no ZIP file to process. *)
Definition world_no_zip : world :=
  World server remote_files mask true [] drive_ok true true "20250101T0000" true.

(** A Drive whose API refuses the photo and takes the rest, and one
    that cannot open the notes. *)
Definition drive_refuses_photo (local_file : string) : upload_outcome :=
  if bool_decide (local_file = "x/a/Smith, Ann - 12345.jpg") then ApiRaises
  else FileId ("id:" +:+ local_file).

Definition drive_cannot_open_notes (local_file : string) : upload_outcome :=
  if bool_decide (local_file = "x/a/notes.csv") then MediaRaises
  else FileId ("id:" +:+ local_file).

(** The consolidated directory before the cleanup. *)
Definition consolidated_dir : gmap string kind :=
  {[ "log-20250101.log" := KFile; "photos_uploaded-20250101T0000.csv" := KFile;
     "old" := KDir; "locked.csv" := KFile; "pipe" := KOther ]}.

Definition all_but_locked (filename : string) : bool :=
  negb (bool_decide (filename = "locked.csv")).
End Sample.

(* ================================================================== *)
(** * Properties *)
(* ================================================================== *)

(* ------------------------------------------------------------------ *)
(** ** The order on sort keys *)
(* ------------------------------------------------------------------ *)

Lemma string_compare_refl (s : string) : (s ?= s)%string = Eq.
Proof.
  destruct (s ?= s)%string eqn:E; [done| |].
  - pose proof (String.compare_antisym s s) as H. rewrite E in H. done.
  - pose proof (String.compare_antisym s s) as H. rewrite E in H. done.
Qed.

Lemma string_compare_eq (s t : string) : (s ?= t)%string = Eq ↔ s = t.
Proof.
  split; [apply String.compare_eq_iff | intros ->; apply string_compare_refl].
Qed.

Lemma string_compare_gt (s t : string) :
  (s ?= t)%string = Gt ↔ (t ?= s)%string = Lt.
Proof.
  rewrite (String.compare_antisym t s). destruct (s ?= t)%string; simpl; split; done.
Qed.

Lemma string_compare_lt_trans (s t u : string) :
  (s ?= t)%string = Lt → (t ?= u)%string = Lt → (s ?= u)%string = Lt.
Proof.
  intros Hst Htu.
  assert (String.le s u) as Hsu.
  { transitivity t; unfold String.le, String.leb; [by rewrite Hst | by rewrite Htu]. }
  unfold String.le, String.leb in Hsu.
  destruct (s ?= u)%string eqn:E; [|done|done].
  apply string_compare_eq in E as ->.
  apply string_compare_gt in Htu. congruence.
Qed.

Lemma key_compare_refl (a : sort_key) : key_compare a a = Eq.
Proof. unfold key_compare. by rewrite !string_compare_refl. Qed.

Lemma key_compare_eq (a b : sort_key) : key_compare a b = Eq → a = b.
Proof.
  destruct a as [[a1 a2] a3], b as [[b1 b2] b3]. unfold key_compare; simpl.
  destruct (a1 ?= b1)%string eqn:E1; [|done|done].
  destruct (a2 ?= b2)%string eqn:E2; [|done|done].
  intros E3. apply string_compare_eq in E1, E2, E3. by subst.
Qed.

Lemma key_compare_gt (a b : sort_key) :
  key_compare a b = Gt ↔ key_compare b a = Lt.
Proof.
  destruct a as [[a1 a2] a3], b as [[b1 b2] b3]. unfold key_compare; simpl.
  rewrite (String.compare_antisym b1 a1), (String.compare_antisym b2 a2),
    (String.compare_antisym b3 a3).
  destruct (a1 ?= b1)%string, (a2 ?= b2)%string, (a3 ?= b3)%string; simpl; split; done.
Qed.

Lemma key_compare_lt_trans (a b c : sort_key) :
  key_compare a b = Lt → key_compare b c = Lt → key_compare a c = Lt.
Proof.
  destruct a as [[a1 a2] a3], b as [[b1 b2] b3], c as [[c1 c2] c3].
  unfold key_compare; simpl.
  destruct (a1 ?= b1)%string eqn:Eab1; [|..|done].
  - apply string_compare_eq in Eab1 as ->.
    destruct (b1 ?= c1)%string eqn:Ebc1; [|done..].
    destruct (a2 ?= b2)%string eqn:Eab2; [|..|done].
    + apply string_compare_eq in Eab2 as ->.
      destruct (b2 ?= c2)%string eqn:Ebc2; [|done..].
      apply string_compare_lt_trans.
    + destruct (b2 ?= c2)%string eqn:Ebc2; [|..|done].
      * apply string_compare_eq in Ebc2 as ->. by rewrite Eab2.
      * by rewrite (string_compare_lt_trans _ _ _ Eab2 Ebc2).
  - destruct (b1 ?= c1)%string eqn:Ebc1; [|..|done].
    + apply string_compare_eq in Ebc1 as ->. by rewrite Eab1.
    + by rewrite (string_compare_lt_trans _ _ _ Eab1 Ebc1).
Qed.

Lemma key_ltb_irrefl (a : sort_key) : key_ltb a a = false.
Proof. unfold key_ltb. by rewrite key_compare_refl. Qed.

Lemma key_ltb_asym (a b : sort_key) : key_ltb a b = true → key_ltb b a = false.
Proof.
  unfold key_ltb. destruct (key_compare a b) eqn:E; [done| |done].
  intros _. apply key_compare_gt in E. by rewrite E.
Qed.

Lemma key_ltb_trans (a b c : sort_key) :
  key_ltb a b = true → key_ltb b c = true → key_ltb a c = true.
Proof.
  unfold key_ltb.
  destruct (key_compare a b) eqn:Eab; [done| |done].
  destruct (key_compare b c) eqn:Ebc; [done| |done].
  by rewrite (key_compare_lt_trans _ _ _ Eab Ebc).
Qed.

Lemma key_ltb_total (a b : sort_key) :
  key_ltb a b = false → key_ltb b a = false → a = b.
Proof.
  unfold key_ltb. destruct (key_compare a b) eqn:E; [|done|].
  - intros _ _. by apply key_compare_eq.
  - apply key_compare_gt in E. by rewrite E.
Qed.

Lemma key_le_trans (a b c : sort_key) : key_le a b → key_le b c → key_le a c.
Proof.
  unfold key_le. intros Hab Hbc.
  destruct (key_ltb c a) eqn:Hca; [|done].
  destruct (key_ltb a b) eqn:Hab'.
  - by rewrite (key_ltb_trans _ _ _ Hca Hab') in Hbc.
  - rewrite (key_ltb_total _ _ Hab' Hab) in Hca. congruence.
Qed.

(* ------------------------------------------------------------------ *)
(** ** The stable sort behind [sorted] *)
(* ------------------------------------------------------------------ *)

Section SortedFacts.
Context {A K : Type} `{!EqDecision K}.
Variable ltb : K → K → bool.
Hypothesis ltb_irrefl : ∀ a, ltb a a = false.
Hypothesis ltb_asym : ∀ a b, ltb a b = true → ltb b a = false.

Implicit Types (x y : K * A) (l : list (K * A)).

Local Abbreviation in_order := (in_order ltb).

Lemma insert_stable_perm x l : insert_stable ltb x l ≡ₚ x :: l.
Proof.
  induction l as [|y l IH]; simpl; [done|].
  destruct (ltb y.1 x.1); [|done].
  rewrite IH. apply perm_swap.
Qed.

Lemma sort_stable_perm l : sort_stable ltb l ≡ₚ l.
Proof.
  induction l as [|x l IH]; simpl; [done|].
  by rewrite insert_stable_perm, IH.
Qed.

Lemma insert_stable_hd x y l :
  in_order y x → HdRel in_order y l → HdRel in_order y (insert_stable ltb x l).
Proof.
  intros Hyx Hl. destruct l as [|z l]; simpl; [by constructor|].
  destruct (ltb z.1 x.1); constructor; [|done].
  by inversion Hl.
Qed.

Lemma insert_stable_sorted x l :
  Sorted in_order l → Sorted in_order (insert_stable ltb x l).
Proof.
  induction 1 as [|y l Hl IH Hhd]; simpl; [by repeat constructor|].
  destruct (ltb y.1 x.1) eqn:Hyx.
  - constructor; [done|]. apply insert_stable_hd; [|done].
    unfold in_order. by apply ltb_asym.
  - constructor; [by constructor|]. by constructor.
Qed.

Lemma sort_stable_sorted l : Sorted in_order (sort_stable ltb l).
Proof.
  induction l as [|x l IH]; simpl; [constructor|].
  by apply insert_stable_sorted.
Qed.

(** Sorting does nothing to a list that is in order. *)
Lemma sort_stable_id l : Sorted in_order l → sort_stable ltb l = l.
Proof.
  induction 1 as [|x l Hl IH Hhd]; simpl; [done|].
  fold (sort_stable ltb l). rewrite IH.
  destruct Hhd as [|y l' Hxy]; simpl; [done|].
  unfold in_order in Hxy. by rewrite Hxy.
Qed.

Lemma sort_stable_idem l : sort_stable ltb (sort_stable ltb l) = sort_stable ltb l.
Proof. apply sort_stable_id, sort_stable_sorted. Qed.

(** Stability: the elements of one key keep their relative order. *)
Lemma insert_stable_filter (k : K) x l :
  filter (λ y, y.1 = k) (insert_stable ltb x l) = filter (λ y, y.1 = k) (x :: l).
Proof.
  induction l as [|y l IH]; simpl; [done|].
  destruct (ltb y.1 x.1) eqn:Hyx; [|done].
  rewrite !filter_cons in *.
  destruct (decide (y.1 = k)) as [Hy|Hy], (decide (x.1 = k)) as [Hx|Hx];
    try (by rewrite IH).
  rewrite Hy, Hx, ltb_irrefl in Hyx. done.
Qed.

Lemma sort_stable_filter (k : K) l :
  filter (λ y, y.1 = k) (sort_stable ltb l) = filter (λ y, y.1 = k) l.
Proof.
  induction l as [|x l IH]; simpl; [done|].
  fold (sort_stable ltb l). rewrite insert_stable_filter, !filter_cons.
  by rewrite IH.
Qed.
End SortedFacts.

Section SortedByKey.
Context {A K : Type} `{!EqDecision K}.
Variable ltb : K → K → bool.
Hypothesis ltb_irrefl : ∀ a, ltb a a = false.
Hypothesis ltb_asym : ∀ a b, ltb a b = true → ltb b a = false.
Hypothesis ltb_le_trans :
  ∀ a b c, ltb b a = false → ltb c b = false → ltb c a = false.
Variable key : A → option K.

Local Abbreviation decorate := (λ x : A, k ← key x; Some (k, x)).
Local Abbreviation keyed := (λ p : K * A, key p.2 = Some p.1).

Lemma decorate_Some (l : list A) (d : list (K * A)) :
  mapM decorate l = Some d ↔ d.*2 = l ∧ Forall keyed d.
Proof.
  rewrite mapM_Some. split.
  - induction 1 as [|x p l d Hx _ [IH1 IH2]]; simpl; [done|].
    destruct (key x) as [k|] eqn:Hk; simplify_eq/=.
    split; [by f_equal|]. by constructor.
  - intros [<- Hd]. induction Hd as [|[k x] d Hx _ IH]; simpl in *; constructor; [|done].
    by rewrite Hx.
Qed.

Lemma sorted_Some (l l' : list A) :
  sorted ltb key l = Some l' ↔
  ∃ d, d.*2 = l ∧ Forall keyed d ∧ l' = (sort_stable ltb d).*2.
Proof.
  unfold sorted. split.
  - destruct (mapM decorate l) as [d|] eqn:Hd; simpl; [|done].
    intros [= <-]. apply decorate_Some in Hd as [??]. by exists d.
  - intros (d & Hl & Hd & ->).
    assert (mapM decorate l = Some d) as -> by by apply decorate_Some.
    done.
Qed.

Lemma sorted_None (l : list A) :
  sorted ltb key l = None ↔ Exists (λ x, key x = None) l.
Proof.
  unfold sorted. split.
  - destruct (mapM decorate l) as [d|] eqn:Hd; [done|]. intros _.
    apply mapM_None in Hd. eapply Exists_impl; [done|].
    intros x. simpl. by destruct (key x).
  - intros Hex. assert (mapM decorate l = None) as ->; [|done].
    apply mapM_None. eapply Exists_impl; [done|].
    intros x ->. done.
Qed.

Lemma keyed_ascending (d : list (K * A)) :
  Forall keyed d → Sorted (in_order ltb) d → ascending ltb key d.*2.
Proof.
  intros Hd Hs. split.
  - apply Sorted_StronglySorted in Hs.
    2:{ intros x y z. unfold in_order. apply ltb_le_trans. }
    induction Hs as [|p d Hs IH Hall]; simpl; [constructor|].
    inversion Hd as [|?? Hp Hd']; subst. constructor; [by apply IH|].
    apply Forall_fmap. eapply Forall_impl.
    { apply Forall_and. split; [exact Hall | exact Hd']. }
    intros q [Hpq Hq]. simpl. exists p.1, q.1. done.
  - apply Forall_fmap. eapply Forall_impl; [done|].
    intros p Hp. simpl. by rewrite Hp.
Qed.

Lemma ascending_keyed (d : list (K * A)) :
  Forall keyed d → ascending ltb key d.*2 → Sorted (in_order ltb) d.
Proof.
  intros Hd [Hs _]. apply StronglySorted_Sorted.
  induction d as [|p d IH]; simpl in *; [constructor|].
  inversion Hd as [|?? Hp Hd']; subst.
  inversion Hs as [|?? Hs' Hall]; subst.
  constructor; [by apply IH|].
  apply Forall_forall. intros q Hq.
  rewrite Forall_forall in Hall. rewrite Forall_forall in Hd'.
  destruct (Hall q.2) as (ka & kb & Ha & Hb & Hlt).
  { apply list_elem_of_fmap. by exists q. }
  specialize (Hd' q Hq). simpl in *.
  unfold in_order. congruence.
Qed.

Lemma keyed_filter (k : K) (d : list (K * A)) :
  Forall keyed d →
  filter (λ x, key x = Some k) d.*2 = (filter (λ p, p.1 = k) d).*2.
Proof.
  induction 1 as [|p d Hp _ IH]; csimpl; [done|].
  rewrite !filter_cons, IH.
  destruct (decide (p.1 = k)) as [Hk|Hk].
  - rewrite decide_True; [done|]. by rewrite Hp, Hk.
  - rewrite decide_False; [done|]. rewrite Hp. congruence.
Qed.

(** What [sorted] returns, whatever algorithm computes it: a
    permutation of the input, ascending by key, in which the elements
    of every key keep their order. *)
Lemma sorted_spec (l l' : list A) :
  sorted ltb key l = Some l' →
  l' ≡ₚ l ∧ ascending ltb key l' ∧
  ∀ k, filter (λ x, key x = Some k) l' = filter (λ x, key x = Some k) l.
Proof.
  intros (d & <- & Hd & ->)%sorted_Some.
  assert (Forall keyed (sort_stable ltb d)) as Hd'.
  { by rewrite sort_stable_perm. }
  split_and!.
  - by rewrite sort_stable_perm.
  - apply keyed_ascending; [done|]. by apply sort_stable_sorted.
  - intros k. rewrite !keyed_filter by done. by rewrite sort_stable_filter.
Qed.

Lemma sorted_ascending_id (l : list A) :
  ascending ltb key l → sorted ltb key l = Some l.
Proof.
  intros Hl. assert (is_Some (mapM decorate l)) as [d Hd].
  { apply mapM_is_Some. eapply Forall_impl; [apply Hl|].
    intros x [k Hk]. simpl. rewrite Hk. done. }
  apply decorate_Some in Hd as [<- Hd].
  apply sorted_Some. exists d. split_and!; [done..|].
  rewrite sort_stable_id; [done|]. by apply ascending_keyed.
Qed.

Lemma sorted_idem (l l' : list A) :
  sorted ltb key l = Some l' → sorted ltb key l' = Some l'.
Proof. intros (_ & Hl' & _)%sorted_spec. by apply sorted_ascending_id. Qed.
End SortedByKey.

(* ------------------------------------------------------------------ *)
(** ** Aggregation *)
(* ------------------------------------------------------------------ *)

Lemma all_data_cons (f : string * csv_read) (files : list (string * csv_read)) :
  all_data (f :: files) = data_of f.2 ++ all_data files.
Proof. done. Qed.

Lemma all_data_app (files1 files2 : list (string * csv_read)) :
  all_data (files1 ++ files2) = all_data files1 ++ all_data files2.
Proof. unfold all_data. by rewrite fmap_app, concat_app. Qed.

Lemma read_index_csv_rows (st : agg_state) (f : string * csv_read) :
  master_rows (read_index_csv st f) =
    master_rows st
    ++ match master_header st with Some _ => [] | None => option_list (header_of f.2) end
    ++ data_of f.2.
Proof.
  destruct f as [p [|[|header rows] raises]]; simpl;
    destruct (master_header st) as [mh|] eqn:Hm; simpl; rewrite ?app_nil_r; try done.
  - destruct (decide (header ≠ mh)), raises; simpl; done.
  - destruct raises; simpl; by rewrite <-app_assoc.
Qed.

Lemma read_index_csv_header (st : agg_state) (f : string * csv_read) :
  master_header (read_index_csv st f) =
    match master_header st with Some h => Some h | None => header_of f.2 end.
Proof.
  destruct f as [p [|[|header rows] raises]]; simpl;
    destruct (master_header st) as [mh|] eqn:Hm; simpl; try done.
  - destruct (decide (header ≠ mh)), raises; simpl; done.
  - destruct raises; simpl; done.
Qed.

Lemma read_index_csv_log (st : agg_state) (f : string * csv_read) :
  agg_log st `prefix_of` agg_log (read_index_csv st f).
Proof.
  destruct f as [p [|[|header rows] raises]]; simpl;
    try (by apply prefix_app_r).
  destruct (master_header st) as [mh|]; [destruct (decide (header ≠ mh))|];
    destruct raises; simpl; try done;
    rewrite <-?app_assoc; by apply prefix_app_r.
Qed.

Lemma foldl_read_header (files : list (string * csv_read)) (st : agg_state) :
  master_header (foldl read_index_csv st files) =
    match master_header st with Some h => Some h | None => first_header files end.
Proof.
  revert st. induction files as [|f files IH]; intros st; simpl.
  - by destruct (master_header st).
  - rewrite IH, read_index_csv_header.
    destruct (master_header st); [done|]. by destruct (header_of f.2).
Qed.

Lemma foldl_read_rows (files : list (string * csv_read)) (st : agg_state) :
  master_rows (foldl read_index_csv st files) =
    master_rows st
    ++ match master_header st with Some _ => [] | None => option_list (first_header files) end
    ++ all_data files.
Proof.
  revert st. induction files as [|f files IH]; intros st; simpl.
  - destruct (master_header st); by rewrite ?app_nil_r.
  - rewrite IH, read_index_csv_header, read_index_csv_rows, all_data_cons.
    destruct (master_header st) as [mh|]; simpl.
    + by rewrite <-!app_assoc.
    + destruct f as [p src]; simpl. destruct (header_of src) as [h|] eqn:Hh; simpl.
      * by rewrite <-!app_assoc.
      * assert (data_of src = []) as ->; [|simpl; by rewrite ?app_nil_r].
        by destruct src as [|[|??] ?].
Qed.

Lemma foldl_read_log (files : list (string * csv_read)) (st : agg_state) :
  agg_log st `prefix_of` agg_log (foldl read_index_csv st files).
Proof.
  revert st. induction files as [|f files IH]; intros st; simpl; [done|].
  etrans; [apply read_index_csv_log | apply IH].
Qed.

(** The rows collected before the sorting step. *)
Lemma collected_rows (files : list (string * csv_read)) :
  master_rows (foldl read_index_csv (AggState None [] []) files) =
    option_list (first_header files) ++ all_data files.
Proof. by rewrite foldl_read_rows. Qed.

Lemma first_header_data (files : list (string * csv_read)) :
  first_header files = None → all_data files = [].
Proof.
  induction files as [|[p src] files IH]; simpl; [done|].
  destruct (header_of src) eqn:Hh; [done|]. intros Hf.
  rewrite all_data_cons, IH by done.
  by destruct src as [|[|??] ?].
Qed.

Lemma sort_step_log (st : agg_state) :
  agg_log st `prefix_of` agg_log (sort_step st).
Proof.
  unfold sort_step. destruct (master_rows st) as [|h [|r data]]; try done.
  destruct (sort_master _ _); simpl; [done|]. by apply prefix_app_r.
Qed.

Lemma aggregate_log_prefix write_ok path files :
  agg_log (foldl read_index_csv (AggState None [] []) files)
    `prefix_of` log_out (aggregate_index_csv write_ok path files).
Proof.
  unfold aggregate_index_csv.
  destruct write_ok; simpl; (etrans; [apply sort_step_log | by apply prefix_app_r]).
Qed.

Lemma aggregate_rows_out write_ok path files :
  rows_out (aggregate_index_csv write_ok path files) =
    master_rows (sort_step (foldl read_index_csv (AggState None [] []) files)).
Proof. unfold aggregate_index_csv. by destruct write_ok. Qed.

Lemma aggregate_written write_ok path files :
  written (aggregate_index_csv write_ok path files) =
    if write_ok then Some (rows_out (aggregate_index_csv write_ok path files)) else None.
Proof. unfold aggregate_index_csv. by destruct write_ok. Qed.

Lemma sort_master_Some (header : row) (data out : list row) :
  sort_master header data = Some out →
  ∃ li pi fi data',
    list_index "Last" header = Some li ∧
    list_index "Preferred" header = Some pi ∧
    list_index "File name" header = Some fi ∧
    sorted key_ltb (row_key li pi fi) data = Some data' ∧
    out = header :: data'.
Proof.
  unfold sort_master. intros H.
  destruct (list_index "Last" header) as [li|]; [|done].
  destruct (list_index "Preferred" header) as [pi|]; [|done].
  destruct (list_index "File name" header) as [fi|]; [|done].
  simpl in H. destruct (sorted _ _ data) as [data'|] eqn:Hs; [|done].
  simplify_eq/=. by exists li, pi, fi, data'.
Qed.

Lemma sorted_rows_spec (li pi fi : nat) (data data' : list row) :
  sorted key_ltb (row_key li pi fi) data = Some data' →
  data' ≡ₚ data ∧ ascending key_ltb (row_key li pi fi) data' ∧
  ∀ k, filter (λ r, row_key li pi fi r = Some k) data'
       = filter (λ r, row_key li pi fi r = Some k) data.
Proof. apply (sorted_spec key_ltb key_ltb_irrefl key_ltb_asym key_le_trans). Qed.

Lemma sorted_rows_ascending_id (li pi fi : nat) (data : list row) :
  ascending key_ltb (row_key li pi fi) data →
  sorted key_ltb (row_key li pi fi) data = Some data.
Proof. apply (sorted_ascending_id key_ltb). Qed.

(** The sorting step keeps the first row and permutes the others. *)
Lemma sort_step_rows (st : agg_state) (header : row) (data : list row) :
  master_rows st = header :: data →
  ∃ data', master_rows (sort_step st) = header :: data' ∧ data' ≡ₚ data.
Proof.
  intros Hst. unfold sort_step. rewrite Hst.
  destruct data as [|r data]; [by exists []; rewrite Hst|].
  destruct (sort_master header (r :: data)) as [out|] eqn:Hs; simpl.
  - apply sort_master_Some in Hs as (li & pi & fi & data' & _ & _ & _ & Hs & ->).
    exists data'. split; [done|]. by apply sorted_rows_spec in Hs as (? & _).
  - by exists (r :: data).
Qed.

Lemma row_key_is_Some (li pi fi : nat) (r : row) :
  is_Some (row_key li pi fi r) ↔ li < length r ∧ pi < length r ∧ fi < length r.
Proof.
  unfold row_key. split.
  - intros [k Hk].
    destruct (r !! li) eqn:E1; simpl in Hk; [|done].
    destruct (r !! pi) eqn:E2; simpl in Hk; [|done].
    destruct (r !! fi) eqn:E3; simpl in Hk; [|done].
    split_and!; by eapply lookup_lt_Some.
  - intros ([a Ha]%lookup_lt_is_Some & [b Hb]%lookup_lt_is_Some & [c Hc]%lookup_lt_is_Some).
    rewrite Ha, Hb, Hc. simpl. eauto.
Qed.

Lemma sorted_rows_is_Some (li pi fi : nat) (data : list row) :
  Forall (λ r, li < length r ∧ pi < length r ∧ fi < length r) data →
  is_Some (sorted key_ltb (row_key li pi fi) data).
Proof.
  intros Hall. destruct (sorted _ _ data) eqn:Hs; [done|].
  apply sorted_None, Exists_exists in Hs as (r & Hr & Hk).
  rewrite Forall_forall in Hall. apply Hall, row_key_is_Some in Hr as [k Hk'].
  congruence.
Qed.

Lemma sort_step_sorted (st : agg_state) (header : row) (data : list row)
    (li pi fi : nat) :
  master_rows st = header :: data →
  list_index "Last" header = Some li →
  list_index "Preferred" header = Some pi →
  list_index "File name" header = Some fi →
  Forall (λ r, li < length r ∧ pi < length r ∧ fi < length r) data →
  ∃ data', sorted key_ltb (row_key li pi fi) data = Some data'
           ∧ master_rows (sort_step st) = header :: data'.
Proof.
  intros Hst Hli Hpi Hfi Hall.
  destruct (sorted_rows_is_Some li pi fi data Hall) as [data' Hs].
  exists data'. split; [done|].
  unfold sort_step. rewrite Hst. destruct data as [|r data].
  - vm_compute in Hs. by simplify_eq.
  - unfold sort_master. rewrite Hli, Hpi, Hfi. simpl. by rewrite Hs.
Qed.

Lemma sort_step_fails (st : agg_state) (header r : row) (data : list row) :
  master_rows st = header :: r :: data →
  sort_master header (r :: data) = None →
  sort_step st = agg_logging ERROR ErrorSortingMaster st.
Proof. intros Hst Hs. unfold sort_step. by rewrite Hst, Hs. Qed.



(** Scenario 4 of the specification, evaluated: 1 header + 5 rows, sorted
    by (Last, Preferred, File name) without regard to case. *)
Example aggregate_two_indexes :
  written (aggregate_index_csv true "out/master.csv" Sample.two_indexes) =
    Some [Sample.header;
          ["photo4.jpg"; "Cy"; "Adams"; "9"];
          ["photo5.jpg"; "Al"; "jones"; "10"];
          ["photo2.jpg"; "Bob"; "Jones"; "777"];
          ["photo1.jpg"; "Ann"; "Smith"; "12345"];
          ["photo3.jpg"; "ann"; "smith"; ""]].
Proof. reflexivity. Qed.


Lemma elem_of_prefix {A} (x : A) (l1 l2 : list A) :
  l1 `prefix_of` l2 → x ∈ l1 → x ∈ l2.
Proof. intros [k ->] ?. apply elem_of_app. by left. Qed.

(** C5: a later index CSV whose header differs from the master header
    gets a WARNING in the log and nothing else changes: the call returns,
    the master header stays first, and the rows written are exactly the
    rows of all files, those of the mismatching file included, each row
    as it was read (no field moved, no row dropped). *)
Theorem header_mismatch_warns_and_keeps_rows (write_ok : bool)
    (master_csv_path idx_csv : string)
    (files1 files2 : list (string * csv_read))
    (master header : row) (rows : list row) (raises : bool) :
  first_header files1 = Some master →
  header ≠ master →
  let files := files1 ++ (idx_csv, Yields (header :: rows) raises) :: files2 in
  let result := aggregate_index_csv write_ok master_csv_path files in
  (WARNING, HeaderMismatch idx_csv) ∈ log_out result ∧
  master_rows (foldl read_index_csv (AggState None [] []) files)
    = master :: all_data files1 ++ rows ++ all_data files2 ∧
  ∃ data, rows_out result = master :: data
          ∧ data ≡ₚ all_data files1 ++ rows ++ all_data files2.
Proof.
  intros Hm Hne files result.
  assert (first_header files = Some master) as Hfirst.
  { subst files. clear -Hm. induction files1 as [|f files1 IH]; simpl in *; [done|].
    destruct (header_of f.2); [done|]. by apply IH. }
  assert (master_rows (foldl read_index_csv (AggState None [] []) files)
          = master :: all_data files1 ++ rows ++ all_data files2) as Hrows.
  { rewrite collected_rows, Hfirst. subst files.
    by rewrite all_data_app, all_data_cons. }
  split_and!; [|done|].
  - eapply elem_of_prefix; [apply aggregate_log_prefix|].
    subst files. rewrite foldl_app. simpl.
    eapply elem_of_prefix; [apply foldl_read_log|].
    set (st := foldl read_index_csv _ files1).
    assert (master_header st = Some master) as Hst.
    { subst st. by rewrite foldl_read_header. }
    rewrite Hst. rewrite decide_True by done.
    destruct raises; simpl; rewrite !elem_of_app, !list_elem_of_singleton; auto.
  - subst result. rewrite aggregate_rows_out. by apply sort_step_rows.
Qed.

Lemma header_mismatch_warns_and_keeps_rows_witness :
  let files := [("x/a/index.csv", Sample.index_a);
                ("x/c/index.csv", Sample.index_other_header)] in
  let result := aggregate_index_csv true "out/master.csv" files in
  first_header [("x/a/index.csv", Sample.index_a)] = Some Sample.header ∧
  ["Last"; "Preferred"; "File name"] ≠ Sample.header ∧
  (WARNING, HeaderMismatch "x/c/index.csv") ∈ log_out result ∧
  master_rows (foldl read_index_csv (AggState None [] []) files)
    = Sample.header :: all_data [("x/a/index.csv", Sample.index_a)]
        ++ [["Young"; "Zoe"; "photo6.jpg"]] ++ all_data [] ∧
  ∃ data, rows_out result = Sample.header :: data
          ∧ data ≡ₚ all_data [("x/a/index.csv", Sample.index_a)]
                     ++ [["Young"; "Zoe"; "photo6.jpg"]] ++ all_data [].
Proof.
  intros files result.
  split; [reflexivity|]. split; [discriminate|].
  apply (header_mismatch_warns_and_keeps_rows true "out/master.csv" "x/c/index.csv"
           [("x/a/index.csv", Sample.index_a)] [] Sample.header
           ["Last"; "Preferred"; "File name"] [["Young"; "Zoe"; "photo6.jpg"]] false);
    [reflexivity | discriminate].
Defined.

(** The rows of the mismatching file are placed under the master header
    by position; here the sort key of the appended row is read from its
    "File name" and "Preferred" fields. *)
Example header_mismatch_positional :
  rows_out (aggregate_index_csv true "out/master.csv"
              [("x/a/index.csv", Sample.index_a);
               ("x/c/index.csv", Sample.index_other_header)]) =
    [Sample.header;
     ["photo2.jpg"; "Bob"; "Jones"; "777"];
     ["Young"; "Zoe"; "photo6.jpg"];
     ["photo1.jpg"; "Ann"; "Smith"; "12345"];
     ["photo3.jpg"; "ann"; "smith"; ""]].
Proof. reflexivity. Qed.

Lemma sort_master_ascending_id (header : row) (data : list row) (li pi fi : nat) :
  list_index "Last" header = Some li →
  list_index "Preferred" header = Some pi →
  list_index "File name" header = Some fi →
  ascending key_ltb (row_key li pi fi) data →
  sort_master header data = Some (header :: data).
Proof.
  intros Hli Hpi Hfi Hasc. unfold sort_master. rewrite Hli, Hpi, Hfi. simpl.
  by rewrite (sorted_rows_ascending_id li pi fi data Hasc).
Qed.

(** The sort applied to its own output. *)
Lemma sort_master_twice (header : row) (data data' : list row) :
  sort_master header data = Some (header :: data') →
  sort_master header data' = Some (header :: data').
Proof.
  intros (li & pi & fi & d & Hli & Hpi & Hfi & Hs & Heq)%sort_master_Some.
  simplify_eq. apply sorted_rows_spec in Hs as (_ & Hasc & _).
  by eapply sort_master_ascending_id.
Qed.



Lemma sort_master_None (header : row) (data : list row) :
  lacks_key_column header ∨ Exists (too_short_for header) data →
  sort_master header data = None.
Proof.
  unfold sort_master.
  destruct (list_index "Last" header) as [li|] eqn:Hli; [|done].
  destruct (list_index "Preferred" header) as [pi|] eqn:Hpi; [|done].
  destruct (list_index "File name" header) as [fi|] eqn:Hfi; [|done].
  intros [[?|[?|?]]|Hex]; [congruence..|]. simpl.
  assert (sorted key_ltb (row_key li pi fi) data = None) as ->; [|done].
  apply sorted_None. eapply Exists_impl; [done|].
  intros r (column & i & Hc & Hi & Hlen). simpl.
  apply lookup_ge_None in Hlen. unfold row_key.
  rewrite !elem_of_cons, elem_of_nil in Hc.
  destruct Hc as [->|[->|[->|[]]]]; simplify_eq; rewrite Hlen; simpl.
  - done.
  - by destruct (r !! li).
  - by destruct (r !! li), (r !! pi).
Qed.

(** C9 (as amended): when at least one data row was collected and a
    data row is too short for one of the three key columns, or the master
    header lacks one of them, the sort raises; the error is logged, and
    the rows handed to the writer are the header followed by all data
    rows in reading order.  The call returns whether or not the file can
    be written. *)
Theorem failed_sort_writes_rows_unsorted (write_ok : bool)
    (master_csv_path : string) (files : list (string * csv_read)) (header : row) :
  first_header files = Some header →
  all_data files ≠ [] →
  lacks_key_column header ∨ Exists (too_short_for header) (all_data files) →
  let result := aggregate_index_csv write_ok master_csv_path files in
  (ERROR, ErrorSortingMaster) ∈ log_out result ∧
  rows_out result = header :: all_data files ∧
  written result = (if write_ok then Some (header :: all_data files) else None).
Proof.
  intros Hh Hdata Hbad result.
  assert (∃ st, sort_step (foldl read_index_csv (AggState None [] []) files)
                = agg_logging ERROR ErrorSortingMaster st
                ∧ master_rows st = header :: all_data files) as (st & Hstep & Hst).
  { eexists. split; [|by rewrite collected_rows, Hh].
    destruct (all_data files) as [|r data] eqn:Hd; [done|].
    eapply sort_step_fails; [by rewrite collected_rows, Hh, Hd|].
    by apply sort_master_None. }
  assert (rows_out result = header :: all_data files) as Hrows.
  { subst result. by rewrite aggregate_rows_out, Hstep. }
  split_and!; [|done|].
  - subst result. unfold aggregate_index_csv. rewrite Hstep.
    destruct write_ok; simpl; rewrite !elem_of_app, !list_elem_of_singleton; auto.
  - subst result. rewrite aggregate_written. by rewrite Hrows.
Qed.

Lemma failed_sort_writes_rows_unsorted_witness :
  let files := [("x/a/index.csv", Sample.index_short)] in
  let result := aggregate_index_csv true "out/master.csv" files in
  first_header files = Some Sample.header ∧
  all_data files ≠ [] ∧
  (lacks_key_column Sample.header
   ∨ Exists (too_short_for Sample.header) (all_data files)) ∧
  (ERROR, ErrorSortingMaster) ∈ log_out result ∧
  rows_out result = Sample.header :: all_data files ∧
  written result = Some (Sample.header :: all_data files).
Proof.
  intros files result.
  assert (Exists (too_short_for Sample.header) (all_data files)) as Hshort.
  { do 2 apply Exists_cons_tl. apply Exists_cons_hd.
    exists "Last", 2. split_and!; [set_solver|reflexivity|simpl; lia]. }
  split; [reflexivity|]. split; [discriminate|]. split; [by right|].
  apply (failed_sort_writes_rows_unsorted true "out/master.csv" files Sample.header);
    [reflexivity|discriminate|by right].
Defined.

(** C9 as stated fails for a master header without the key columns when
    no data row was collected: the sorting step is not entered, nothing
    is raised and no error is logged. *)
Lemma header_without_columns_no_sort_error :
  let files := [("x/a/index.csv", Sample.index_header_only)] in
  let result := aggregate_index_csv true "out/master.csv" files in
  first_header files = Some ["A"; "B"] ∧
  lacks_key_column ["A"; "B"] ∧
  log_out result = [(INFO, MasterCreated "out/master.csv")] ∧
  ((ERROR, ErrorSortingMaster) ∉ log_out result) ∧
  written result = Some [["A"; "B"]].
Proof.
  intros files result. split_and!; [reflexivity|by left|reflexivity| |reflexivity].
  vm_compute. by intros [?|?%elem_of_nil]%elem_of_cons.
Qed.

(* ------------------------------------------------------------------ *)
(** ** Retrieval *)
(* ------------------------------------------------------------------ *)

Section Retrieval.
Variable srv : sftp_server.
Variables remote_path local_dir : string.

Local Abbreviation rpath := (remote_file_path remote_path).
Local Abbreviation lpath := (local_file_path local_dir).
Local Abbreviation fetched := (λ f, sftp_get srv (rpath f) = true).
Local Abbreviation deleted :=
  (λ f, sftp_get srv (rpath f) = true ∧ sftp_remove srv (rpath f) = true).
Local Abbreviation loop := (foldl (download_one srv remote_path local_dir)).

Lemma remote_file_path_inj (f g : string) : rpath f = rpath g → f = g.
Proof.
  unfold remote_file_path. intros H.
  apply String.app_inj in H. by apply String.app_inj in H.
Qed.

Lemma download_one_files (st : sftp_state) (f : string) :
  downloaded_files (download_one srv remote_path local_dir st f) =
    downloaded_files st ++ (if sftp_get srv (rpath f) then [lpath f] else []).
Proof.
  unfold download_one.
  destruct (sftp_get srv (rpath f)); simpl; [|by rewrite app_nil_r].
  by destruct (sftp_remove srv (rpath f)).
Qed.

Lemma download_one_remote (st : sftp_state) (f : string) :
  remote (download_one srv remote_path local_dir st f) =
    if sftp_get srv (rpath f) && sftp_remove srv (rpath f)
    then remote st ∖ {[rpath f]} else remote st.
Proof.
  unfold download_one.
  destruct (sftp_get srv (rpath f)); simpl; [|done].
  by destruct (sftp_remove srv (rpath f)).
Qed.

Lemma download_one_log (st : sftp_state) (f : string) :
  sftp_log (download_one srv remote_path local_dir st f) =
    sftp_log st ++ (INFO, Downloading f) ::
      (if sftp_get srv (rpath f)
       then [(INFO, DownloadCompleted f);
             if sftp_remove srv (rpath f)
             then (INFO, DeletedRemote f) else (ERROR, ErrorDeletingRemote f)]
       else [(ERROR, ErrorDownloading f)]).
Proof.
  unfold download_one.
  destruct (sftp_get srv (rpath f)); simpl; [|by rewrite <-app_assoc].
  destruct (sftp_remove srv (rpath f)); simpl; by rewrite <-!app_assoc.
Qed.

Lemma loop_files (l : list string) (st : sftp_state) :
  downloaded_files (loop st l) = downloaded_files st ++ (lpath <$> filter fetched l).
Proof.
  revert st. induction l as [|f l IH]; intros st; simpl; [by rewrite app_nil_r|].
  rewrite IH, download_one_files, filter_cons.
  case_decide as Hd.
  - rewrite Hd. by rewrite <-app_assoc.
  - destruct (sftp_get srv (rpath f)); [done|]. by rewrite app_nil_r.
Qed.

Lemma loop_remote (l : list string) (st : sftp_state) :
  remote (loop st l) = remote st ∖ list_to_set (rpath <$> filter deleted l).
Proof.
  revert st. induction l as [|f l IH]; intros st; simpl; [set_solver|].
  rewrite IH, download_one_remote, filter_cons.
  case_decide as Hd.
  - destruct Hd as [-> ->]. simpl. set_solver.
  - destruct (sftp_get srv (rpath f)), (sftp_remove srv (rpath f)); simpl; try done.
    by destruct Hd.
Qed.

Lemma loop_log_prefix (l : list string) (st : sftp_state) :
  sftp_log st `prefix_of` sftp_log (loop st l).
Proof.
  revert st. induction l as [|f l IH]; intros st; simpl; [done|].
  etrans; [|apply IH]. rewrite download_one_log. by apply prefix_app_r.
Qed.

Lemma loop_log_elem (l : list string) (st : sftp_state) (f : string) (e : level * message) :
  f ∈ l →
  e ∈ sftp_log (download_one srv remote_path local_dir (SftpState ∅ [] []) f) →
  e ∈ sftp_log (loop st l).
Proof.
  revert st. induction l as [|g l IH]; intros st Hf He; [by apply elem_of_nil in Hf|].
  simpl. apply elem_of_cons in Hf as [<-|Hf]; [|by apply IH].
  eapply elem_of_prefix; [apply loop_log_prefix|].
  rewrite download_one_log in *. simpl in He.
  apply elem_of_app. by right.
Qed.
End Retrieval.

(** C10: with the connection made and the listing read, the files
    returned are the matching files whose fetch returned, in listing
    order.  A remote file that is gone afterwards was fetched before and
    is in the returned list.  When the fetch of a matching file raises,
    the error is logged, the file is not deleted, and the later matches
    are still fetched (they are in the returned list).  When the fetch
    returns and the delete raises, the local path stays in the returned
    list and the file stays on the server. *)
Theorem remote_delete_only_after_fetch (srv : sftp_server)
    (remote_path local_dir : string) (filename_mask : string → bool)
    (files : list string) (remote_before : gset string) :
  sftp_connect srv = true →
  sftp_listdir srv = Some files →
  sftp_makedirs srv = true →
  let matching_files := filter (λ f, filename_mask f = true) files in
  let st := download_files_from_sftp srv remote_path local_dir filename_mask
              (SftpState remote_before [] []) in
  let rpath := remote_file_path remote_path in
  let lpath := local_file_path local_dir in
  downloaded_files st
    = lpath <$> filter (λ f, sftp_get srv (rpath f) = true) matching_files ∧
  (∀ p, p ∈ remote_before → p ∉ remote st →
        ∃ f, f ∈ matching_files ∧ p = rpath f ∧ sftp_get srv p = true
             ∧ lpath f ∈ downloaded_files st) ∧
  (∀ f, f ∈ matching_files → sftp_get srv (rpath f) = false →
        (ERROR, ErrorDownloading f) ∈ sftp_log st ∧
        (rpath f ∈ remote_before → rpath f ∈ remote st)) ∧
  (∀ f, f ∈ matching_files → sftp_get srv (rpath f) = true →
        sftp_remove srv (rpath f) = false →
        lpath f ∈ downloaded_files st ∧
        (ERROR, ErrorDeletingRemote f) ∈ sftp_log st ∧
        (rpath f ∈ remote_before → rpath f ∈ remote st)).
Proof.
  intros Hc Hl Hm matching_files st rpath lpath.
  set (st0 := SftpState remote_before [] []).
  set (loop := foldl (download_one srv remote_path local_dir) st0 matching_files).
  assert (downloaded_files st = downloaded_files loop
          ∧ remote st = remote loop
          ∧ sftp_log loop `prefix_of` sftp_log st) as (Hfiles & Hremote & Hlog).
  { subst st. unfold download_files_from_sftp. rewrite Hc, Hl, Hm. simpl.
    fold matching_files. subst loop.
    destruct matching_files as [|f l] eqn:Hmf.
    - destruct (sftp_close srv); simpl; split_and!; try done; by apply prefix_nil.
    - rewrite <-Hmf. destruct (sftp_close srv); simpl; split_and!; try done.
      by apply prefix_app_r. }
  assert (downloaded_files st
          = lpath <$> filter (λ f, sftp_get srv (rpath f) = true) matching_files)
    as Hlist.
  { rewrite Hfiles. subst loop. by rewrite loop_files. }
  assert (∀ f, rpath f ∈ remote_before → rpath f ∉ remote st →
               f ∈ matching_files ∧ sftp_get srv (rpath f) = true
               ∧ sftp_remove srv (rpath f) = true) as Hgone.
  { intros f Hin Hout. rewrite Hremote in Hout. subst loop.
    rewrite loop_remote in Hout. simpl in Hout.
    destruct (decide (rpath f ∈ (list_to_set
      (rpath <$> filter (λ f, sftp_get srv (rpath f) = true
                              ∧ sftp_remove srv (rpath f) = true) matching_files)
      : gset string))) as [Hd|Hd]; [|set_solver].
    apply elem_of_list_to_set, list_elem_of_fmap in Hd as (g & Hg & Hd).
    apply remote_file_path_inj in Hg as <-.
    apply list_elem_of_filter in Hd as [[??] ?]. done. }
  split_and!; [done| | |].
  - intros p Hin Hout. rewrite Hremote in Hout. subst loop.
    rewrite loop_remote in Hout. simpl in Hout.
    destruct (decide (p ∈ (list_to_set
      (rpath <$> filter (λ f, sftp_get srv (rpath f) = true
                              ∧ sftp_remove srv (rpath f) = true) matching_files)
      : gset string))) as [Hd|Hd]; [|set_solver].
    apply elem_of_list_to_set, list_elem_of_fmap in Hd as (g & -> & Hd).
    apply list_elem_of_filter in Hd as [[Hg Hr] Hgm].
    exists g. split_and!; [done..|].
    rewrite Hlist. apply list_elem_of_fmap. exists g. split; [done|].
    by apply list_elem_of_filter.
  - intros f Hf Hget. split.
    + eapply elem_of_prefix; [exact Hlog|]. subst loop.
      eapply loop_log_elem; [done|]. rewrite download_one_log.
      fold (rpath f). rewrite Hget. set_solver.
    + intros Hin. destruct (decide (rpath f ∈ remote st)) as [|Hout]; [done|].
      destruct (Hgone f Hin Hout) as (_ & ? & _). congruence.
  - intros f Hf Hget Hrem. split_and!.
    + rewrite Hlist. apply list_elem_of_fmap. exists f. split; [done|].
      by apply list_elem_of_filter.
    + eapply elem_of_prefix; [exact Hlog|]. subst loop.
      eapply loop_log_elem; [done|]. rewrite download_one_log.
      fold (rpath f). rewrite Hget, Hrem. set_solver.
    + intros Hin. destruct (decide (rpath f ∈ remote st)) as [|Hout]; [done|].
      destruct (Hgone f Hin Hout) as (_ & _ & ?). congruence.
Qed.

Lemma remote_delete_only_after_fetch_witness :
  let files := ["datafile_1.zip"; "notes.txt"; "datafile_2.zip"; "datafile_3.zip"] in
  let matching_files := filter (λ f, Sample.mask f = true) files in
  let st := download_files_from_sftp Sample.server "/remote/path/" "downloads"
              Sample.mask (SftpState Sample.remote_files [] []) in
  let rpath := remote_file_path "/remote/path/" in
  let lpath := local_file_path "downloads" in
  sftp_connect Sample.server = true ∧
  sftp_listdir Sample.server = Some files ∧
  sftp_makedirs Sample.server = true ∧
  downloaded_files st
    = lpath <$> filter (λ f, sftp_get Sample.server (rpath f) = true) matching_files ∧
  (∀ p, p ∈ Sample.remote_files → p ∉ remote st →
        ∃ f, f ∈ matching_files ∧ p = rpath f ∧ sftp_get Sample.server p = true
             ∧ lpath f ∈ downloaded_files st) ∧
  (∀ f, f ∈ matching_files → sftp_get Sample.server (rpath f) = false →
        (ERROR, ErrorDownloading f) ∈ sftp_log st ∧
        (rpath f ∈ Sample.remote_files → rpath f ∈ remote st)) ∧
  (∀ f, f ∈ matching_files → sftp_get Sample.server (rpath f) = true →
        sftp_remove Sample.server (rpath f) = false →
        lpath f ∈ downloaded_files st ∧
        (ERROR, ErrorDeletingRemote f) ∈ sftp_log st ∧
        (rpath f ∈ Sample.remote_files → rpath f ∈ remote st)).
Proof.
  intros files matching_files st rpath lpath.
  do 3 (split; [reflexivity|]).
  apply (remote_delete_only_after_fetch Sample.server "/remote/path/" "downloads"
           Sample.mask files Sample.remote_files); reflexivity.
Defined.

(** The same run, evaluated: the second archive is neither returned nor
    deleted, the third is returned and still on the server. *)
Example download_sample :
  let st := download_files_from_sftp Sample.server "/remote/path/" "downloads"
              Sample.mask (SftpState Sample.remote_files [] []) in
  downloaded_files st = ["downloads/datafile_1.zip"; "downloads/datafile_3.zip"] ∧
  remote st = {[ "/remote/path/notes.txt"; "/remote/path/datafile_2.zip";
                 "/remote/path/datafile_3.zip" ]} ∧
  sftp_log st =
    [(INFO, Downloading "datafile_1.zip"); (INFO, DownloadCompleted "datafile_1.zip");
     (INFO, DeletedRemote "datafile_1.zip");
     (INFO, Downloading "datafile_2.zip"); (ERROR, ErrorDownloading "datafile_2.zip");
     (INFO, Downloading "datafile_3.zip"); (INFO, DownloadCompleted "datafile_3.zip");
     (ERROR, ErrorDeletingRemote "datafile_3.zip")].
Proof. split_and!; [reflexivity| |reflexivity]. by vm_compute. Qed.

(* ------------------------------------------------------------------ *)
(** ** Renaming *)
(* ------------------------------------------------------------------ *)

Lemma string_length_app (s t : string) :
  String.length (s +:+ t) = String.length s + String.length t.
Proof. induction s as [|a s IH]; simpl; [done|]. by rewrite IH. Qed.

Lemma string_app_cancel_r (s1 s2 t : string) : s1 +:+ t = s2 +:+ t → s1 = s2.
Proof.
  revert s2. induction s1 as [|a s1 IH]; intros [|b s2] H; simpl in *.
  - done.
  - apply (f_equal String.length) in H.
    rewrite !string_length_app in H. simpl in H. lia.
  - apply (f_equal String.length) in H.
    rewrite !string_length_app in H. simpl in H. lia.
  - injection H as -> H. f_equal. by apply IH.
Qed.

Global Instance candidate_filename_inj (last first ic_id ext : string) :
  Inj (=) (=) (candidate_filename last first ic_id ext).
Proof.
  intros n m H. unfold candidate_filename in H.
  do 6 apply (inj (String.app _)) in H.
  apply string_app_cancel_r in H. by apply (inj pretty) in H.
Qed.

Lemma candidate_filename_not_new (last first ic_id ext : string) (n : nat) :
  candidate_filename last first ic_id ext n ≠ new_filename last first ic_id ext.
Proof.
  unfold candidate_filename, new_filename. intros H.
  do 5 apply (inj (String.app _)) in H.
  apply (f_equal String.length) in H. rewrite !string_length_app in H.
  simpl in H. lia.
Qed.

Lemma exists_in_true (d : directory) (name : string) :
  exists_in d name = true ↔ is_Some (d !! name).
Proof. unfold exists_in. by rewrite bool_decide_eq_true. Qed.

Lemma exists_in_false (d : directory) (name : string) :
  exists_in d name = false ↔ d !! name = None.
Proof.
  unfold exists_in. by rewrite bool_decide_eq_false, eq_None_not_Some.
Qed.

Section WhileExists.
Variable d : directory.
Variable mk : nat → string.

(** If the loop stops on a name that exists, it ran out of iterations
    and every name it tried exists. *)
Lemma while_exists_stuck (fuel : nat) (candidate : string) (counter : nat) :
  exists_in d (while_exists d mk fuel candidate counter).1 = true →
  exists_in d candidate = true ∧
  ∀ k, counter ≤ k < counter + fuel → exists_in d (mk k) = true.
Proof.
  revert candidate counter.
  induction fuel as [|fuel IH]; intros candidate counter; simpl.
  - destruct (exists_in d candidate) eqn:He; simpl; [|congruence].
    intros _. split; [done|]. intros k ?. lia.
  - destruct (exists_in d candidate) eqn:He; simpl; [|congruence].
    intros [Hmk Hall]%IH. split; [done|]. intros k Hk.
    destruct (decide (k = counter)) as [->|]; [done|]. apply Hall. lia.
Qed.

(** At most [size d] names exist. *)
Lemma names_in_directory (counter fuel : nat) :
  Inj (=) (=) mk →
  (∀ k, counter ≤ k < counter + fuel → exists_in d (mk k) = true) →
  (fuel ≤ size d)%nat.
Proof.
  intros Hinj Hall.
  set (l := mk <$> seq counter fuel).
  assert (NoDup l) as Hl by (apply (NoDup_fmap_2 _), NoDup_seq).
  assert ((list_to_set l : gset string) ⊆ dom d) as Hsub.
  { intros x (k & -> & Hk%elem_of_seq)%elem_of_list_to_set%list_elem_of_fmap.
    apply elem_of_dom, exists_in_true, Hall. lia. }
  apply subseteq_size in Hsub.
  rewrite size_list_to_set, size_dom in Hsub by done.
  subst l. by rewrite length_fmap, length_seq in Hsub.
Qed.

(** With [S (size d)] iterations the loop leaves by its test: the
    name it returns does not exist. *)
Lemma while_exists_exits (candidate : string) (counter : nat) :
  Inj (=) (=) mk →
  d !! (while_exists d mk (S (size d)) candidate counter).1 = None.
Proof.
  intros Hinj. apply exists_in_false.
  destruct (exists_in d _) eqn:He; [|done].
  apply while_exists_stuck in He as [_ Hall].
  apply names_in_directory in Hall; [lia|done].
Qed.

(** The name returned is the first of [candidate, mk counter,
    mk (counter + 1), ...] after the ones that were found to exist. *)
Lemma while_exists_first (fuel : nat) (candidate : string) (counter : nat)
    (c : string) (n : nat) :
  while_exists d mk fuel candidate counter = (c, n) →
  (c = candidate ∧ n = counter) ∨
  (exists_in d candidate = true ∧ counter < n ∧ c = mk (n - 1) ∧
   ∀ k, counter ≤ k < n - 1 → exists_in d (mk k) = true).
Proof.
  revert candidate counter.
  induction fuel as [|fuel IH]; intros candidate counter; simpl.
  - destruct (exists_in d candidate); intros [= <- <-]; by left.
  - destruct (exists_in d candidate) eqn:He; [|intros [= <- <-]; by left].
    intros [[-> ->]|(Hmk & Hlt & -> & Hall)]%IH; right.
    + split_and!; [done|lia|f_equal; lia|intros k ?; lia].
    + split_and!; [done|lia|done|]. intros k Hk.
      destruct (decide (k = counter)) as [->|]; [done|]. apply Hall. lia.
Qed.

Lemma while_exists_free (fuel : nat) (candidate : string) (counter : nat) :
  d !! candidate = None →
  while_exists d mk fuel candidate counter = (candidate, counter).
Proof.
  intros He%exists_in_false. destruct fuel; simpl; by rewrite He.
Qed.
End WhileExists.

Section Renaming.
Variable rename_ok : string → string → bool.
Variable fieldnames : list string.
Hypothesis rename_returns : ∀ src dst, rename_ok src dst = true.

Lemma required_fields_nil : required_fields fieldnames [] = None.
Proof.
  unfold required_fields, dict_get.
  by destruct (list_rindex "File name" fieldnames).
Qed.

(** One row whose payload file exists: the file is moved to a name
    that did not exist, the first free one of the row's names. *)
Lemma rename_row_renames (r : row) (d : directory) (lg : log)
    (original_file first last : string) (v : node) :
  required_fields fieldnames r = Some (original_file, first, last) →
  d !! original_file = Some v →
  let ic_id := resolve_ic_id (dict_get fieldnames r "IC ID Number") in
  let ext := (os_path_splitext original_file).2 in
  ∃ c n,
    rename_row rename_ok fieldnames r (d, lg) =
      (Returned (),
       (<[c := v]> (delete original_file d),
        lg ++ [(INFO, Renamed original_file c (bool_decide (1 < n)))])) ∧
    d !! c = None ∧
    ((c = new_filename last first ic_id ext ∧ n = 1) ∨
     (is_Some (d !! new_filename last first ic_id ext) ∧ 1 < n ∧
      c = candidate_filename last first ic_id ext (n - 1) ∧
      ∀ k, 1 ≤ k < n - 1 → is_Some (d !! candidate_filename last first ic_id ext k))).
Proof.
  intros Hf Ho ic_id ext. unfold rename_row. rewrite Hf. fold ic_id ext.
  destruct (while_exists d _ _ _ _) as [c n] eqn:Hw.
  exists c, n. rewrite Ho, rename_returns. split; [done|].
  split.
  - pose proof (while_exists_exits d (candidate_filename last first ic_id ext)
                  (new_filename last first ic_id ext) 1 _) as Hfree.
    by rewrite Hw in Hfree.
  - apply while_exists_first in Hw as [[-> ->]|(He & Hlt & -> & Hall)]; [by left|].
    right. split_and!; [by apply exists_in_true|done..|].
    intros k Hk. by apply exists_in_true, Hall.
Qed.

Lemma rename_row_name_for (r : row) (d : directory) (lg : log)
    (original_file first last : string) (v : node) :
  required_fields fieldnames r = Some (original_file, first, last) →
  d !! original_file = Some v →
  ∃ c flag,
    rename_row rename_ok fieldnames r (d, lg) =
      (Returned (),
       (<[c := v]> (delete original_file d),
        lg ++ [(INFO, Renamed original_file c flag)])) ∧
    d !! c = None ∧ name_for fieldnames r c.
Proof.
  intros Hf Ho.
  destruct (rename_row_renames r d lg _ _ _ v Hf Ho) as (c & n & Hr & Hc & Hform).
  exists c, (bool_decide (1 < n)). split_and!; [done..|].
  exists original_file, first, last. split; [done|]. simpl.
  destruct Hform as [[-> _]|(_ & Hlt & -> & _)]; [by left|].
  right. exists (n - 1). split; [lia|done].
Qed.

Lemma rename_rows_cons (x : string) (r : row) (rows : list row)
    (st : directory * log) :
  rename_rows rename_ok fieldnames ((x :: r) :: rows) st =
    match rename_row rename_ok fieldnames (x :: r) st with
    | (Returned _, st) => rename_rows rename_ok fieldnames rows st
    | (Raised, st) => (Raised, st)
    end.
Proof. done. Qed.

(** The pass over the rows.  [P] is a set of names that are in the
    directory and are not payload files of the rows: the pass leaves
    them in place and gives none of them. *)
Lemma rename_rows_distinct (rows : list row) (d : directory) (lg : log)
    (P : gset string) :
  Forall (λ r, is_Some (required_fields fieldnames r)) rows →
  NoDup (originals fieldnames rows) →
  (∀ o, o ∈ originals fieldnames rows → is_Some (d !! o)) →
  P ⊆ dom d →
  (∀ o, o ∈ originals fieldnames rows → o ∉ P) →
  ∃ names d' lg',
    rename_rows rename_ok fieldnames rows (d, lg) = (Returned (), (d', lg ++ lg')) ∧
    renamed_to lg' = zip (originals fieldnames rows) names ∧
    Forall2 (name_for fieldnames) rows names ∧
    NoDup names ∧
    (∀ c, c ∈ names → (c ∉ P) ∧ is_Some (d' !! c)) ∧
    P ⊆ dom d' ∧
    size d' = size d.
Proof.
  revert d lg P. induction rows as [|r rows IH]; intros d lg P Hreq Hnd Hin HP Hdisj.
  { exists [], d, []. simpl. rewrite app_nil_r.
    split_and!; [done|done|constructor|constructor| |done|done].
    by intros ? ?%elem_of_nil. }
  apply Forall_cons in Hreq as [[[[o f] l] Hf] Hreq].
  unfold originals in *. simpl in Hnd, Hin, Hdisj. rewrite Hf in Hnd, Hin, Hdisj.
  simpl in Hnd, Hin, Hdisj. fold (originals fieldnames rows) in *.
  apply NoDup_cons in Hnd as [Ho Hnd].
  destruct (Hin o) as [v Hv]; [set_solver|].
  destruct (rename_row_name_for r d lg o f l v Hf Hv) as (c & flag & Hr & Hc & Hname).
  assert (c ≠ o) as Hco by (intros ->; congruence).
  set (d1 := <[c := v]> (delete o d)).
  destruct (IH d1 (lg ++ [(INFO, Renamed o c flag)]) (P ∪ {[c]}))
    as (names & d' & lg' & Hrs & Hlog & Hnames & Hnd' & Hgiven & HP' & Hsize);
    [done|done| | | |].
  { intros o' Ho'. subst d1. rewrite lookup_insert_ne.
    - rewrite lookup_delete_ne; [apply Hin; set_solver|]. by intros <-.
    - intros <-. destruct (Hin c) as [? ?]; [set_solver|congruence]. }
  { subst d1. rewrite dom_insert_L, dom_delete_L.
    assert (o ∉ P) by (apply Hdisj; set_solver). set_solver. }
  { intros o' Ho'. assert (o' ∉ P) by (apply Hdisj; set_solver).
    assert (o' ≠ c); [|set_solver].
    intros ->. destruct (Hin c) as [? ?]; [set_solver|congruence]. }
  exists (c :: names), d', ([(INFO, Renamed o c flag)] ++ lg').
  split_and!.
  - destruct r as [|x r]; [by rewrite required_fields_nil in Hf|].
    unfold d1 in Hrs. rewrite rename_rows_cons, Hr, Hrs. by rewrite <-app_assoc.
  - simpl. rewrite Hf. simpl. by rewrite Hlog.
  - by constructor.
  - apply NoDup_cons. split; [|done]. intros Hcn.
    destruct (Hgiven c Hcn) as [? _]. set_solver.
  - intros c' [->|Hc']%elem_of_cons.
    + split.
      * intros HcP. apply HP, elem_of_dom in HcP as [? ?]. congruence.
      * apply elem_of_dom. set_solver.
    + destruct (Hgiven c' Hc') as [? ?]. split; [set_solver|done].
  - set_solver.
  - rewrite Hsize. subst d1.
    rewrite map_size_insert_None by (by rewrite lookup_delete_ne).
    rewrite map_size_delete_Some by eauto.
    assert (size d ≠ 0); [|lia].
    intros Hz%map_size_empty_inv. by rewrite Hz, lookup_empty in Hv.
Qed.
End Renaming.

Lemma nth_name_inj (last first ic_id ext : string) :
  Inj (=) (=) (nth_name last first ic_id ext).
Proof.
  intros [|i] [|j] H; simpl in H.
  - done.
  - symmetry in H. by apply candidate_filename_not_new in H.
  - by apply candidate_filename_not_new in H.
  - by apply (inj _) in H.
Qed.

Section SameTarget.
Variable rename_ok : string → string → bool.
Variable fieldnames : list string.
Hypothesis rename_returns : ∀ src dst, rename_ok src dst = true.
Variables last first ic_id ext : string.

Local Abbreviation nth := (nth_name last first ic_id ext).

Local Abbreviation holds_first := (holds_first last first ic_id ext).

Lemma while_exists_nth (d : directory) (j : nat) :
  holds_first d j →
  while_exists d (candidate_filename last first ic_id ext) (S (size d))
    (new_filename last first ic_id ext) 1 = (nth j, S j).
Proof.
  intros Hd.
  destruct (while_exists d _ _ _ _) as [c n] eqn:Hw.
  pose proof (while_exists_exits d (candidate_filename last first ic_id ext)
                (new_filename last first ic_id ext) 1 _) as Hfree.
  rewrite Hw in Hfree. simpl in Hfree.
  apply while_exists_first in Hw as [[-> ->]|(He & Hlt & -> & Hall)].
  - destruct j as [|j]; [done|].
    assert (is_Some (d !! nth 0)) as [? ?] by (apply Hd; lia).
    simpl in *. congruence.
  - assert (n - 1 = j) as Hn.
    2:{ rewrite Hn. destruct j as [|j]; [lia|]. simpl. f_equal. lia. }
    destruct (decide (n - 1 < j)) as [Hless|Hge].
    { apply Hd in Hless as [? Hsome].
      destruct (n - 1) as [|m] eqn:Hm; [lia|]. simpl in Hsome. congruence. }
    destruct (decide (j < n - 1)) as [Hmore|]; [|lia].
    destruct j as [|j].
    + apply exists_in_true, (Hd 0) in He. lia.
    + assert (is_Some (d !! nth (S j))) as Hsome%Hd; [|lia].
      apply exists_in_true, Hall. lia.
Qed.

Lemma rename_rows_same_target (rows : list row) (d : directory) (lg : log) (j : nat) :
  Forall (maps_to fieldnames last first ic_id ext) rows →
  NoDup (originals fieldnames rows) →
  (∀ o, o ∈ originals fieldnames rows → is_Some (d !! o) ∧ ∀ i, o ≠ nth i) →
  holds_first d j →
  ∃ d' lg',
    rename_rows rename_ok fieldnames rows (d, lg) = (Returned (), (d', lg ++ lg')) ∧
    renamed_to lg' = zip (originals fieldnames rows) (nth <$> seq j (length rows)).
Proof.
  revert d lg j. induction rows as [|r rows IH]; intros d lg j Hsame Hnd Hin Hd.
  { exists d, []. by rewrite app_nil_r. }
  apply Forall_cons in Hsame as [(o & Hf & Hic & Hext) Hsame].
  unfold originals in *. simpl in Hnd, Hin. rewrite Hf in Hnd, Hin.
  simpl in Hnd, Hin. fold (originals fieldnames rows) in *.
  apply NoDup_cons in Hnd as [Ho Hnd].
  destruct (Hin o) as [[v Hv] Hov]; [set_solver|].
  assert (rename_row rename_ok fieldnames r (d, lg) =
          (Returned (), (<[nth j := v]> (delete o d),
                         lg ++ [(INFO, Renamed o (nth j) (bool_decide (1 < S j)))])))
    as Hr.
  { unfold rename_row. rewrite Hf, Hic, Hext, (while_exists_nth d j Hd).
    by rewrite Hv, rename_returns. }
  destruct (IH (<[nth j := v]> (delete o d))
              (lg ++ [(INFO, Renamed o (nth j) (bool_decide (1 < S j)))]) (S j))
    as (d' & lg' & Hrs & Hlog); [done|done| | |].
  { intros o' Ho'. destruct (Hin o') as [Ho'd Ho'n]; [set_solver|].
    split; [|done]. rewrite lookup_insert_ne by done.
    rewrite lookup_delete_ne; [done|]. by intros <-. }
  { intros i. destruct (decide (i = j)) as [->|Hij].
    - rewrite lookup_insert_eq. split; [lia|eauto].
    - rewrite lookup_insert_ne by (by intros ?%nth_name_inj).
      rewrite lookup_delete_ne by done. rewrite (Hd i). lia. }
  exists d', ([(INFO, Renamed o (nth j) (bool_decide (1 < S j)))] ++ lg').
  split.
  - destruct r as [|x r].
    { unfold required_fields, dict_get in Hf.
      by destruct (list_rindex "File name" fieldnames). }
    rewrite rename_rows_cons, Hr, Hrs. by rewrite <-app_assoc.
  - simpl. rewrite Hf. simpl. by rewrite Hlog.
Qed.
End SameTarget.

Lemma originals_cons (fieldnames : list string) (r : row) (rows : list row)
    (original_file first last : string) :
  required_fields fieldnames r = Some (original_file, first, last) →
  originals fieldnames (r :: rows) = original_file :: originals fieldnames rows.
Proof. intros H. unfold originals. simpl. by rewrite H. Qed.

Lemma originals_length (fieldnames : list string) (rows : list row) :
  Forall (λ r, is_Some (required_fields fieldnames r)) rows →
  length (originals fieldnames rows) = length rows.
Proof.
  induction 1 as [|r rows [[[o f] l] Ht] _ IH]; [done|].
  rewrite (originals_cons _ _ _ _ _ _ Ht). simpl. by rewrite IH.
Qed.

Lemma maps_to_required (fieldnames : list string) (last first ic_id ext : string)
    (rows : list row) :
  Forall (maps_to fieldnames last first ic_id ext) rows →
  Forall (λ r, is_Some (required_fields fieldnames r)) rows.
Proof.
  intros H. eapply Forall_impl; [exact H|].
  intros r (o & Hf & _). by rewrite Hf.
Qed.



(** The three rows of one person, evaluated (scenario 3 of the
    specification with one more row). *)
Example rename_same_person :
  renamed_to
    (rename_rows (λ _ _, true) Sample.header Sample.same_person
       (Sample.three_photos, [])).2.2 =
    [("photo1.jpg", "Smith, Ann - 12345.jpg");
     ("photo2.jpg", "Smith, Ann - 12345 (1).jpg");
     ("photo3.jpg", "Smith, Ann - 12345 (2).jpg")].
Proof. by vm_compute. Qed.


Lemma truthy_Some (s : string) : s ≠ "" → truthy (Some s) = Some s.
Proof. intros Hs. simpl. by rewrite bool_decide_eq_false_2. Qed.

Lemma required_fields_Some (fieldnames : list string) (r : row)
    (original_file first last : string) :
  dict_get fieldnames r "File name" = Some original_file → original_file ≠ "" →
  dict_get fieldnames r "Preferred" = Some first → first ≠ "" →
  dict_get fieldnames r "Last" = Some last → last ≠ "" →
  required_fields fieldnames r = Some (original_file, first, last).
Proof.
  intros Ho Ho' Hf Hf' Hl Hl'. unfold required_fields.
  rewrite Ho, Hf, Hl, !truthy_Some by done. done.
Qed.



(** Scenarios 1 and 2 of the specification, evaluated on the whole
    archive. *)
Example scenario_with_id :
  (process_zip_archive (λ _ _, true) "in/a.zip" "x/a"
     (Sample.archive_of_rows [["photo1.jpg"; "Ann"; "Smith"; "12345"]]) ∅).2
  = [(INFO, ProcessingZip "in/a.zip"); (INFO, ExtractionCompleted "x/a");
     (INFO, FoundIndex "x/a/index.csv");
     (INFO, Renamed "photo1.jpg" "Smith, Ann - 12345.jpg" false)].
Proof. by vm_compute. Qed.

Example scenario_without_id :
  (process_zip_archive (λ _ _, true) "in/a.zip" "x/a"
     (Sample.archive_of_rows [["photo1.jpg"; "Ann"; "Smith"; ""]]) ∅).2
  = [(INFO, ProcessingZip "in/a.zip"); (INFO, ExtractionCompleted "x/a");
     (INFO, FoundIndex "x/a/index.csv");
     (INFO, Renamed "photo1.jpg" "Smith, Ann - not admitted yet.jpg" false)].
Proof. by vm_compute. Qed.

(* ------------------------------------------------------------------ *)
(** ** Locating the index CSV *)
(* ------------------------------------------------------------------ *)

(** When the scan returns, it returns the first member that qualifies. *)
Lemma find_index_csv_returned (entries : list zip_entry) (lg lg' : log)
    (found : option string) :
  find_index_csv entries lg = (Returned found, lg') →
  found = entry_name <$> head (filter (λ e, qualifies e = true) entries).
Proof.
  revert lg. induction entries as [|e entries IH]; intros lg; simpl.
  { by intros [= <- <-]. }
  rewrite filter_cons. destruct (qualifies e) eqn:Hq; unfold qualifies in Hq.
  - rewrite decide_True by done. apply andb_true_iff in Hq as [-> Hh].
    destruct (entry_opens e); simpl; [|done].
    destruct (binary_first_line (entry_contents e)) as [header_line|]; [|done].
    rewrite Hh. by intros [= <- <-].
  - rewrite decide_False by done.
    destruct (endswith (lower (entry_name e)) ".csv"); simpl in *; [|by apply IH].
    destruct (entry_opens e); simpl; [|done].
    destruct (binary_first_line (entry_contents e)) as [header_line|]; [|by apply IH].
    rewrite Hq. by apply IH.
Qed.

(** When every member can be opened, the scan returns. *)
Lemma find_index_csv_returns (entries : list zip_entry) (lg : log) :
  Forall (λ e, entry_opens e = true) entries →
  ∃ lg', find_index_csv entries lg
         = (Returned (entry_name <$> head (filter (λ e, qualifies e = true) entries)),
            lg ++ lg').
Proof.
  intros Hopen. revert lg.
  induction Hopen as [|e entries He _ IH]; intros lg; simpl.
  { exists []. by rewrite app_nil_r. }
  rewrite filter_cons, He. simpl.
  destruct (qualifies e) eqn:Hq; unfold qualifies in Hq.
  - rewrite decide_True by done. apply andb_true_iff in Hq as [-> Hh].
    destruct (binary_first_line (entry_contents e)) as [header_line|]; [|done].
    rewrite Hh. exists []. by rewrite app_nil_r.
  - rewrite decide_False by done.
    destruct (endswith (lower (entry_name e)) ".csv"); simpl in *; [|by apply IH].
    destruct (binary_first_line (entry_contents e)) as [header_line|].
    + rewrite Hq. by apply IH.
    + destruct (IH (lg ++ [(ERROR, ErrorReadingHeader (entry_name e))])) as [lg' ->].
      eexists. by rewrite <-app_assoc.
Qed.

Lemma extractall_keeps (entries : list zip_entry) (d : directory) (name : string) :
  is_Some (d !! name) → is_Some (extractall entries d !! name).
Proof.
  revert d. induction entries as [|e entries IH]; intros d Hd; simpl; [done|].
  apply IH. destruct (decide (entry_name e = name)) as [<-|].
  - rewrite lookup_insert_eq. eauto.
  - by rewrite lookup_insert_ne.
Qed.

Lemma extractall_extracts (entries : list zip_entry) (d : directory) (e : zip_entry) :
  e ∈ entries → is_Some (extractall entries d !! entry_name e).
Proof.
  revert d. induction entries as [|e' entries IH]; intros d He; [by apply elem_of_nil in He|].
  apply elem_of_cons in He as [->|He]; simpl; [|by apply IH].
  apply extractall_keeps. rewrite lookup_insert_eq. eauto.
Qed.

(** C2 (as amended): with an archive that extracts and whose members can
    be opened, the index CSV returned is the first member, in archive
    order, whose name ends in ".csv" (whatever the case) and whose first
    line decodes as UTF-8 and contains "File name"; so a path is returned
    if and only if some member passes this test.  If none does, [None] is
    returned, the error is logged, and the directory holds every member
    of the archive. *)
Theorem index_is_first_qualifying_csv (rename_ok : string → string → bool)
    (zip_path extract_dir : string) (z : zip_archive) (d : directory) :
  extract_fails_after z = None →
  Forall (λ e, entry_opens e = true) (namelist z) →
  let result := process_zip_archive rename_ok zip_path extract_dir z d in
  result.1.1 = (λ e, os_path_join extract_dir (entry_name e))
                 <$> head (filter (λ e, qualifies e = true) (namelist z)) ∧
  (is_Some result.1.1 ↔ Exists (λ e, qualifies e = true) (namelist z)) ∧
  (result.1.1 = None →
   result.1.2 = extractall (namelist z) d ∧
   (∀ e, e ∈ namelist z → is_Some (result.1.2 !! entry_name e)) ∧
   (ERROR, IndexNotFound) ∈ result.2).
Proof.
  intros Hx Hopen result.
  destruct (find_index_csv_returns (namelist z)
              [(INFO, ProcessingZip zip_path); (INFO, ExtractionCompleted extract_dir)]
              Hopen) as [lg' Hfind].
  assert (result.1.1 = (λ e, os_path_join extract_dir (entry_name e))
                         <$> head (filter (λ e, qualifies e = true) (namelist z))) as Hres.
  { subst result. unfold process_zip_archive. rewrite Hx. simpl. rewrite Hfind.
    destruct (head _) as [e|]; simpl; [|done].
    by destruct (rename_from_index _ _ _) as [[|] [? ?]]. }
  split_and!; [done| |].
  - rewrite Hres, fmap_is_Some. rewrite Exists_exists. split.
    + intros [e He]. apply head_Some_elem_of, list_elem_of_filter in He as [? ?]. eauto.
    + intros (e & He & Hq).
      destruct (filter _ _) as [|e' l] eqn:Hf; simpl; [|eauto].
      assert (e ∈ filter (λ e, qualifies e = true) (namelist z)) as Hin
        by by apply list_elem_of_filter.
      rewrite Hf in Hin. by apply elem_of_nil in Hin.
  - intros Hnone. rewrite Hres in Hnone. apply fmap_None in Hnone.
    subst result. unfold process_zip_archive. rewrite Hx. simpl.
    rewrite Hfind, Hnone. simpl. split_and!; [done| |set_solver].
    intros e He. by apply extractall_extracts.
Qed.

Lemma index_is_first_qualifying_csv_witness :
  let result := process_zip_archive (λ _ _, true) "in/a.zip" "x/a"
                  Sample.archive_two_csv ∅ in
  extract_fails_after Sample.archive_two_csv = None ∧
  Forall (λ e, entry_opens e = true) (namelist Sample.archive_two_csv) ∧
  result.1.1 = (λ e, os_path_join "x/a" (entry_name e))
                 <$> head (filter (λ e, qualifies e = true)
                             (namelist Sample.archive_two_csv)) ∧
  (is_Some result.1.1
   ↔ Exists (λ e, qualifies e = true) (namelist Sample.archive_two_csv)) ∧
  (result.1.1 = None →
   result.1.2 = extractall (namelist Sample.archive_two_csv) ∅ ∧
   (∀ e, e ∈ namelist Sample.archive_two_csv → is_Some (result.1.2 !! entry_name e)) ∧
   (ERROR, IndexNotFound) ∈ result.2).
Proof.
  intros result. split; [reflexivity|]. split; [by repeat constructor|].
  apply (index_is_first_qualifying_csv (λ _ _, true) "in/a.zip" "x/a"
           Sample.archive_two_csv ∅); [reflexivity|by repeat constructor].
Defined.

(** C2 as stated fails: the header line of "index.txt" contains
    "File name", yet the member is not taken for the index because its
    name does not end in ".csv"; the archive is extracted and [None] is
    returned. *)
Lemma index_txt_not_recognised :
  let result := process_zip_archive (λ _ _, true) "in/a.zip" "x/a"
                  Sample.archive_index_txt ∅ in
  (∃ e header_line,
     e ∈ namelist Sample.archive_index_txt ∧
     entry_name e = "index.txt" ∧
     binary_first_line (entry_contents e) = Some header_line ∧
     contains "File name" header_line = true) ∧
  result.1.1 = None ∧
  is_Some (result.1.2 !! "index.txt") ∧
  result.2 = [(INFO, ProcessingZip "in/a.zip"); (INFO, ExtractionCompleted "x/a");
              (ERROR, IndexNotFound)].
Proof.
  intros result. split_and!; [|reflexivity|vm_compute; by eexists|reflexivity].
  exists (ZipEntry "index.txt" true
            (Sample.index_of_rows [["photo1.jpg"; "Ann"; "Smith"; "12345"]])),
    "File name,Preferred,Last,IC ID Number".
  split_and!; [|reflexivity..].
  apply elem_of_cons. right. apply elem_of_cons. by left.
Qed.

(* ------------------------------------------------------------------ *)
(** ** Upload of an extraction directory *)
(* ------------------------------------------------------------------ *)

Lemma upload_file_to_drive_calls (drv : string → upload_outcome)
    (local_file : string) (st : drive_state) :
  upload_calls (upload_file_to_drive drv local_file st).2
    = upload_calls st ++ [local_file].
Proof. unfold upload_file_to_drive. by destruct (drv local_file). Qed.

Lemma upload_file_to_drive_returns (drv : string → upload_outcome)
    (local_file : string) (st : drive_state) :
  drv local_file ≠ MediaRaises →
  ∃ id, (upload_file_to_drive drv local_file st).1 = Returned id.
Proof. unfold upload_file_to_drive. destruct (drv local_file); eauto. done. Qed.

Lemma upload_one_calls (drv : string → upload_outcome) (extraction_dir : string)
    (entry : string * node) (st : drive_state) :
  upload_calls (upload_one drv extraction_dir entry st).2
    = upload_calls st
      ++ (if uploadable entry then [os_path_join extraction_dir entry.1] else []).
Proof.
  destruct entry as [file [|f]]; unfold uploadable, is_index_csv; simpl.
  { by rewrite app_nil_r. }
  destruct (endswith (lower file) ".csv"); simpl.
  - destruct (text_first_line f) as [first_line|]; simpl.
    + destruct (contains "File name" first_line); simpl; [by rewrite app_nil_r|].
      pose proof (upload_file_to_drive_calls drv (os_path_join extraction_dir file) st).
      by destruct (upload_file_to_drive _ _ _) as [[|] ?].
    + pose proof (upload_file_to_drive_calls drv (os_path_join extraction_dir file)
                    (drive_logging ERROR
                       (ErrorReadingFile (os_path_join extraction_dir file)) st)).
      by destruct (upload_file_to_drive _ _ _) as [[|] ?].
  - pose proof (upload_file_to_drive_calls drv (os_path_join extraction_dir file) st).
    by destruct (upload_file_to_drive _ _ _) as [[|] ?].
Qed.

Lemma upload_loop_calls (drv : string → upload_outcome) (extraction_dir : string)
    (listing : list (string * node)) (st : drive_state) :
  let result := upload_loop drv extraction_dir listing st in
  let sent := filter (λ e, uploadable e = true) listing in
  ∃ k, upload_calls result.2
         = upload_calls st ++ (os_path_join extraction_dir <$> (take k sent).*1)
       ∧ (result.1 = Returned () → k = length sent).
Proof.
  revert st. induction listing as [|entry listing IH]; intros st; simpl.
  { exists 0. simpl. by rewrite app_nil_r. }
  pose proof (upload_one_calls drv extraction_dir entry st) as Hone.
  rewrite filter_cons.
  destruct (upload_one drv extraction_dir entry st) as [[[]|] st1] eqn:Hu; simpl in *.
  - destruct (IH st1) as (k & Hk & Hall). rewrite Hk, Hone.
    destruct (uploadable entry) eqn:Hup.
    + rewrite decide_True by done. exists (S k). simpl.
      split; [by rewrite <-app_assoc|]. intros ?. f_equal. by apply Hall.
    + rewrite decide_False by done. exists k. by rewrite app_nil_r.
  - rewrite Hone. destruct (uploadable entry) eqn:Hup.
    + rewrite decide_True by done. exists 1. simpl. done.
    + rewrite decide_False by done. exists 0. simpl. done.
Qed.

(** The path that [process_zip_archive] returns is that of the first
    member that qualifies. *)
Lemma process_zip_archive_index (rename_ok : string → string → bool)
    (zip_path extract_dir : string) (z : zip_archive) (d : directory) (p : string) :
  (process_zip_archive rename_ok zip_path extract_dir z d).1.1 = Some p →
  ∃ e, head (filter (λ e, qualifies e = true) (namelist z)) = Some e
       ∧ p = os_path_join extract_dir (entry_name e).
Proof.
  unfold process_zip_archive.
  destruct (extract_fails_after z); [done|].
  destruct (find_index_csv _ _) as [[[name|]|] lg] eqn:Hfind; simpl; [|done..].
  apply find_index_csv_returned in Hfind.
  destruct (head _) as [e|]; simplify_eq/=.
  destruct (rename_from_index _ _ _) as [[|] [? ?]]; simpl; intros [= <-]; eauto.
Qed.


(** The listing of a directory with an index CSV, a second CSV that
    looks like one and an ordinary CSV, evaluated: the two index-like
    files are announced as skipped, the others are uploaded. *)
Example upload_listing_two_csv :
  let result := upload_extracted_files Sample.drive_ok "x/a"
                  (Some Sample.listing_two_csv) (DriveState [] []) in
  upload_calls result.2 = ["x/a/Smith, Ann - 12345.jpg"; "x/a/notes.csv"] ∧
  drive_log result.2 =
    [(INFO, Uploaded "Smith, Ann - 12345.jpg" "id:x/a/Smith, Ann - 12345.jpg");
     (INFO, SkippingIndexCsv "index.csv");
     (INFO, SkippingIndexCsv "Report.CSV");
     (INFO, Uploaded "notes.csv" "id:x/a/notes.csv");
     (INFO, FinishedUploading "x/a")].
Proof. split; reflexivity. Qed.

(* ------------------------------------------------------------------ *)
(** ** The whole run *)
(* ------------------------------------------------------------------ *)

Section Run.
Variable drv : string → upload_outcome.
Hypothesis media_opens : ∀ p, drv p ≠ MediaRaises.

Lemma upload_one_returns (extraction_dir : string) (entry : string * node)
    (st : drive_state) :
  (upload_one drv extraction_dir entry st).1 = Returned ().
Proof.
  destruct entry as [file [|f]]; simpl; [done|].
  assert (∀ st, (match upload_file_to_drive drv (os_path_join extraction_dir file) st
                 with
                 | (Returned _, st) => (Returned (), st)
                 | (Raised, st) => (Raised, st)
                 end).1 = Returned ()) as Hup.
  { intros st'.
    destruct (upload_file_to_drive_returns drv (os_path_join extraction_dir file) st')
      as [id Hid]; [done|].
    destruct (upload_file_to_drive _ _ _) as [[|] ?]; simpl in *; done. }
  destruct (endswith (lower file) ".csv"); [|done].
  destruct (text_first_line f) as [first_line|]; [|done].
  by destruct (contains "File name" first_line).
Qed.

Lemma upload_loop_returns (extraction_dir : string)
    (listing : list (string * node)) (st : drive_state) :
  (upload_loop drv extraction_dir listing st).1 = Returned ().
Proof.
  revert st. induction listing as [|entry listing IH]; intros st; simpl; [done|].
  pose proof (upload_one_returns extraction_dir entry st) as Hone.
  destruct (upload_one drv extraction_dir entry st) as [[[]|] st1]; simpl in *; done.
Qed.

Lemma upload_extracted_files_returns (extraction_dir : string)
    (listing : list (string * node)) (st : drive_state) :
  (upload_extracted_files drv extraction_dir (Some listing) st).1 = Returned ().
Proof.
  unfold upload_extracted_files.
  pose proof (upload_loop_returns extraction_dir listing st) as Hloop.
  destruct (upload_loop _ _ _ _) as [[[]|] ?]; simpl in *; done.
Qed.

Lemma process_one_zip_returns (extraction_base_dir : string) (w : archive_world)
    (st : batch_state) :
  unguarded_calls_return w →
  (process_one_zip drv extraction_base_dir w st).1 = Returned ().
Proof.
  intros [Hdir Hlist]. unfold process_one_zip. rewrite Hlist.
  destruct (extraction_dir_before w) as [d0|]; simpl.
  - destruct (process_zip_archive _ _ _ _ _) as [[idx d1] lg].
    match goal with
    | |- context [upload_loop drv ?dir ?l ?ds] =>
        pose proof (upload_loop_returns dir l ds) as Hup;
        destruct (upload_loop drv dir l ds) as [[[]|] ?]
    end; simpl in *; done.
  - destruct Hdir as [[? ?]| ->]; [done|].
    destruct (process_zip_archive _ _ _ _ _) as [[idx d1] lg].
    match goal with
    | |- context [upload_loop drv ?dir ?l ?ds] =>
        pose proof (upload_loop_returns dir l ds) as Hup;
        destruct (upload_loop drv dir l ds) as [[[]|] ?]
    end; simpl in *; done.
Qed.

Lemma process_zip_loop_returns (extraction_base_dir : string)
    (zip_files : list archive_world) (st : batch_state) :
  Forall unguarded_calls_return zip_files →
  (process_zip_loop drv extraction_base_dir zip_files st).1 = Returned ().
Proof.
  intros Hall. revert st.
  induction Hall as [|w zip_files Hw _ IH]; intros st; simpl; [done|].
  pose proof (process_one_zip_returns extraction_base_dir w st Hw) as Hone.
  destruct (process_one_zip _ _ _ _) as [[[]|] st1]; simpl in *; done.
Qed.

Lemma process_all_zip_archives_returns (extraction_base_dir : string)
    (zip_files : list archive_world) (ds : drive_state) :
  Forall unguarded_calls_return zip_files →
  ∃ index_csv_files,
    (process_all_zip_archives drv extraction_base_dir zip_files ds).1
      = Returned index_csv_files.
Proof.
  intros Hall. unfold process_all_zip_archives.
  destruct zip_files as [|w zip_files]; [by eexists|].
  pose proof (process_zip_loop_returns extraction_base_dir (w :: zip_files)
                (BatchState [] ds) Hall) as Hloop.
  destruct (process_zip_loop _ _ _ _) as [[[]|] st]; simpl in *; [by eexists|done].
Qed.
End Run.



(** Scenario 5 of the specification, evaluated: nothing matches on the
    server, the script exits with code 1 and uploads nothing. *)
Example nothing_to_fetch :
  let r := main Sample.world_nothing_to_fetch in
  ending r = SysExit 1 ∧ uploads r = [] ∧ master_csv r = None ∧
  run_log r = [(ERROR, NoMatchingFiles); (ERROR, NothingDownloaded)].
Proof. by vm_compute. Qed.

(** A run over an unreadable archive and an archive with an incomplete
    row, a missing payload file, a failing rename and failing uploads:
    all is logged and the master CSV is written and handed to the
    upload. *)
Example run_with_bad_archives :
  let r := main Sample.world_bad_archives in
  ending r = Completed ∧
  uploads r = ["C:\path\to\your\temp_extraction/datafile_3/photo1.jpg";
               "C:\path\to\consolidated/photos_uploaded-20250101T0000.csv"] ∧
  master_csv r =
    Some ("C:\path\to\consolidated/photos_uploaded-20250101T0000.csv",
          [Sample.header;
           ["missing.jpg"; "Bob"; "Jones"; "2"];
           ["photo1.jpg"; ""; "Smith"; "1"];
           ["photo1.jpg"; "Ann"; "Smith"; "3"]]).
Proof. by vm_compute. Qed.


(* ================================================================== *)
(** * Further properties of the code *)
(* ================================================================== *)

(* ------------------------------------------------------------------ *)
(** ** Retrieval *)
(* ------------------------------------------------------------------ *)

(** What a call does to the server and to the returned list, in every
    branch: for some list [l] of matching names (none when the call
    gives up early), the files returned are those of [l] that were
    fetched and the files removed those that were fetched and deleted. *)
Lemma download_effect (srv : sftp_server) (remote_path local_dir : string)
    (filename_mask : string → bool) (remote_before : gset string) :
  let st := download_files_from_sftp srv remote_path local_dir filename_mask
              (SftpState remote_before [] []) in
  ∃ l, Forall (λ f, filename_mask f = true) l ∧
       downloaded_files st
         = local_file_path local_dir
             <$> filter (λ f, sftp_get srv (remote_file_path remote_path f) = true) l ∧
       remote st
         = remote_before ∖ list_to_set
             (remote_file_path remote_path
                <$> filter (λ f, sftp_get srv (remote_file_path remote_path f) = true
                                 ∧ sftp_remove srv (remote_file_path remote_path f) = true) l).
Proof.
  intros st. subst st. unfold download_files_from_sftp.
  assert (∃ l, Forall (λ f, filename_mask f = true) l ∧
            [] = local_file_path local_dir
                  <$> filter (λ f, sftp_get srv (remote_file_path remote_path f) = true) l ∧
            remote_before
              = remote_before ∖ list_to_set
                  (remote_file_path remote_path
                     <$> filter (λ f, sftp_get srv (remote_file_path remote_path f) = true
                                      ∧ sftp_remove srv (remote_file_path remote_path f) = true) l))
    as Hnone.
  { exists []. split_and!; [constructor|done|set_solver]. }
  destruct (sftp_connect srv); simpl; [|exact Hnone].
  destruct (sftp_listdir srv) as [files|]; [|exact Hnone].
  destruct (filter (λ f, filename_mask f = true) files) as [|f l] eqn:Hm.
  { destruct (sftp_close srv); exact Hnone. }
  destruct (sftp_makedirs srv); simpl; [|exact Hnone].
  exists (f :: l). split.
  { rewrite <-Hm. apply Forall_forall. by intros g [? _]%list_elem_of_filter. }
  pose proof (loop_files srv remote_path local_dir (f :: l) (SftpState remote_before [] []))
    as Hf.
  pose proof (loop_remote srv remote_path local_dir (f :: l) (SftpState remote_before [] []))
    as Hr.
  simpl in Hf, Hr. by destruct (sftp_close srv).
Qed.

(** X1: whatever the server does, a remote file whose name does not
    match the mask is never removed, nothing is ever added to the server,
    and every path returned is the local path of a matching file whose
    fetch returned. *)
Theorem download_touches_only_matching_files (srv : sftp_server)
    (remote_path local_dir : string) (filename_mask : string → bool)
    (remote_before : gset string) :
  let st := download_files_from_sftp srv remote_path local_dir filename_mask
              (SftpState remote_before [] []) in
  remote st ⊆ remote_before ∧
  (∀ p, p ∈ remote_before →
        (∀ f, filename_mask f = true → p ≠ remote_file_path remote_path f) →
        p ∈ remote st) ∧
  (∀ q, q ∈ downloaded_files st →
        ∃ f, filename_mask f = true ∧ q = local_file_path local_dir f ∧
             sftp_get srv (remote_file_path remote_path f) = true).
Proof.
  intros st.
  destruct (download_effect srv remote_path local_dir filename_mask remote_before)
    as (l & Hl & Hfiles & Hremote).
  fold st in Hfiles, Hremote. rewrite Forall_forall in Hl. split_and!.
  - rewrite Hremote. set_solver.
  - intros p Hp Hno. rewrite Hremote. apply elem_of_difference. split; [done|].
    intros (f & -> & [_ Hf]%list_elem_of_filter)%elem_of_list_to_set%list_elem_of_fmap.
    by apply (Hno f (Hl f Hf)).
  - intros q Hq. rewrite Hfiles in Hq.
    apply list_elem_of_fmap in Hq as (f & -> & [Hget Hf]%list_elem_of_filter).
    exists f. split_and!; [by apply Hl|done..].
Qed.

(** X2: when the connection or the listing fails, when no listed name
    matches the mask, or when the local directory cannot be made, the
    call returns the empty list, leaves the server as it was and logs an
    error; the script then ends by [exit(1)] without any upload. *)
Theorem failed_retrieval_returns_nothing (w : world) :
  sftp_connect (server w) = false ∨
  sftp_listdir (server w) = None ∨
  (∃ files, sftp_listdir (server w) = Some files
            ∧ Forall (λ f, filename_mask w f = false) files) ∨
  sftp_makedirs (server w) = false →
  let st := download_files_from_sftp (server w) SFTP_REMOTE_PATH SFTP_DOWNLOAD_DIR
              (filename_mask w) (SftpState (remote_before w) [] []) in
  downloaded_files st = [] ∧
  remote st = remote_before w ∧
  (∃ m, sftp_log st = [(ERROR, m)] ∨ sftp_log st = [(ERROR, m); (ERROR, ErrorSftpProcess)]) ∧
  ending (main w) = SysExit 1 ∧
  uploads (main w) = [] ∧
  remote_after (main w) = remote_before w.
Proof.
  intros Hfail st.
  assert (downloaded_files st = [] ∧ remote st = remote_before w ∧
          ∃ m, sftp_log st = [(ERROR, m)]
               ∨ sftp_log st = [(ERROR, m); (ERROR, ErrorSftpProcess)]) as (Hf & Hr & Hl).
  { subst st. unfold download_files_from_sftp.
    destruct (sftp_connect (server w)) eqn:Hc; simpl; [|by eauto 6].
    destruct (sftp_listdir (server w)) as [files|] eqn:Hls; [|by eauto 6].
    destruct (filter (λ f, filename_mask w f = true) files) as [|f l] eqn:Hm.
    { destruct (sftp_close (server w)); simpl; eauto 6. }
    destruct (sftp_makedirs (server w)) eqn:Hmk; simpl; [|by eauto 6].
    destruct Hfail as [?|[?|[(files' & Hls' & Hnone)|?]]]; try done.
    simplify_eq. assert (f ∈ filter (λ f, filename_mask w f = true) files') as Hin.
    { rewrite Hm. by left. }
    apply list_elem_of_filter in Hin as [Hf Hin].
    rewrite Forall_forall in Hnone. apply Hnone in Hin. congruence. }
  split_and!; [done..| | |]; unfold main; fold st; rewrite Hf; simpl; done.
Qed.

Lemma failed_retrieval_returns_nothing_witness :
  let w := Sample.world_server_down in
  let st := download_files_from_sftp (server w) SFTP_REMOTE_PATH SFTP_DOWNLOAD_DIR
              (filename_mask w) (SftpState (remote_before w) [] []) in
  (sftp_connect (server w) = false ∨
   sftp_listdir (server w) = None ∨
   (∃ files, sftp_listdir (server w) = Some files
             ∧ Forall (λ f, filename_mask w f = false) files) ∨
   sftp_makedirs (server w) = false) ∧
  downloaded_files st = [] ∧
  remote st = remote_before w ∧
  (∃ m, sftp_log st = [(ERROR, m)] ∨ sftp_log st = [(ERROR, m); (ERROR, ErrorSftpProcess)]) ∧
  ending (main w) = SysExit 1 ∧
  uploads (main w) = [] ∧
  remote_after (main w) = remote_before w.
Proof.
  intros w st. split; [by left|].
  apply (failed_retrieval_returns_nothing w). by left.
Defined.

(* ------------------------------------------------------------------ *)
(** ** Aggregation *)
(* ------------------------------------------------------------------ *)

Lemma foldl_read_unreadable (files : list (string * csv_read)) (st : agg_state) :
  Forall (λ f, header_of f.2 = None) files →
  foldl read_index_csv st files
    = AggState (master_header st) (master_rows st)
        (agg_log st ++ ((λ f, (ERROR, ErrorReadingIndex f.1)) <$> files)).
Proof.
  intros Hall. revert st.
  induction Hall as [|[p src] files Hsrc _ IH]; intros st; simpl.
  { rewrite app_nil_r. by destruct st. }
  rewrite IH. destruct src as [|[|header rows] raises]; simpl in *; try done;
    by rewrite <-app_assoc.
Qed.

(** X3: when no index CSV gives a header (none was found, none can be
    opened, or all are empty), the call still returns: it hands no row to
    the writer, so the master CSV is written empty, and the log has one
    error per index CSV, in order, before the closing message. *)
Theorem aggregate_without_readable_index (write_ok : bool)
    (master_csv_path : string) (files : list (string * csv_read)) :
  Forall (λ f, header_of f.2 = None) files →
  let result := aggregate_index_csv write_ok master_csv_path files in
  rows_out result = [] ∧
  written result = (if write_ok then Some [] else None) ∧
  log_out result
    = ((λ f, (ERROR, ErrorReadingIndex f.1)) <$> files)
      ++ [if write_ok then (INFO, MasterCreated master_csv_path)
          else (ERROR, ErrorWritingMaster master_csv_path)].
Proof.
  intros Hall result. subst result. unfold aggregate_index_csv.
  rewrite (foldl_read_unreadable files _ Hall). simpl.
  by destruct write_ok.
Qed.

Lemma aggregate_without_readable_index_witness :
  let files := [("x/a/index.csv", CannotOpen); ("x/b/index.csv", Yields [] false);
                ("x/c/index.csv", Yields [] true)] in
  let result := aggregate_index_csv true "out/master.csv" files in
  Forall (λ f, header_of f.2 = None) files ∧
  rows_out result = [] ∧
  written result = Some [] ∧
  log_out result
    = ((λ f, (ERROR, ErrorReadingIndex f.1)) <$> files)
      ++ [(INFO, MasterCreated "out/master.csv")].
Proof.
  intros files result.
  assert (Forall (λ f, header_of f.2 = None) files) as Hall by by repeat constructor.
  split; [exact Hall|].
  apply (aggregate_without_readable_index true "out/master.csv" files Hall).
Defined.

(** X4: for any index CSVs, readable or not, sorted or not, the rows
    handed to the writer are the first header met followed by a
    permutation of all rows read after a header, those read before a
    read error included: aggregation drops no row, repeats none and adds
    none. *)
Theorem aggregate_keeps_every_row (write_ok : bool) (master_csv_path : string)
    (files : list (string * csv_read)) :
  ∃ data,
    rows_out (aggregate_index_csv write_ok master_csv_path files)
      = option_list (first_header files) ++ data ∧
    data ≡ₚ all_data files.
Proof.
  rewrite aggregate_rows_out.
  destruct (first_header files) as [header|] eqn:Hh.
  - destruct (sort_step_rows (foldl read_index_csv (AggState None [] []) files)
                header (all_data files)) as (data & Hrows & Hperm).
    { by rewrite collected_rows, Hh. }
    exists data. by rewrite Hrows.
  - exists []. rewrite (first_header_data files Hh). split; [|done].
    assert (master_rows (foldl read_index_csv (AggState None [] []) files) = [])
      as Hnil by by rewrite collected_rows, Hh, (first_header_data files Hh).
    unfold sort_step. by rewrite Hnil, Hnil.
Qed.

(** A file that breaks off after two rows: the rows read before the
    error are kept, and sorted with the others. *)
Example aggregate_partial_file :
  let result := aggregate_index_csv true "out/master.csv"
                  [("x/a/index.csv",
                    Yields [Sample.header;
                            ["photo1.jpg"; "Ann"; "Smith"; "12345"];
                            ["photo2.jpg"; "Bob"; "Jones"; "777"]] true)] in
  rows_out result = [Sample.header;
                     ["photo2.jpg"; "Bob"; "Jones"; "777"];
                     ["photo1.jpg"; "Ann"; "Smith"; "12345"]] ∧
  log_out result = [(ERROR, ErrorReadingIndex "x/a/index.csv");
                    (INFO, MasterCreated "out/master.csv")].
Proof. split; reflexivity. Qed.

(* ------------------------------------------------------------------ *)
(** ** Renaming *)
(* ------------------------------------------------------------------ *)

Lemma while_exists_more_fuel (d : directory) (mk : nat → string)
    (fuel fuel' : nat) (candidate : string) (counter : nat) :
  d !! (while_exists d mk fuel candidate counter).1 = None →
  fuel ≤ fuel' →
  while_exists d mk fuel' candidate counter = while_exists d mk fuel candidate counter.
Proof.
  revert fuel' candidate counter.
  induction fuel as [|fuel IH]; intros fuel' candidate counter; simpl.
  - destruct (exists_in d candidate) eqn:He; simpl.
    + intros Hnone%exists_in_false. congruence.
    + intros _ _. destruct fuel'; simpl; by rewrite He.
  - destruct (exists_in d candidate) eqn:He; simpl.
    + intros Hnone Hle. destruct fuel' as [|fuel']; [lia|]. simpl. rewrite He.
      apply IH; [done|lia].
    + intros _ _. destruct fuel'; simpl; by rewrite He.
Qed.

(** X5: the collision loop ends.  In a directory of [size d] names, at
    most [size d] names are tried and found to exist before a free one
    is reached: more iterations than [S (size d)] are never used, the
    name returned does not exist, and the counter ends at most at
    [S (size d)]. *)
Theorem collision_loop_terminates (d : directory)
    (last first ic_id ext : string) (fuel : nat) :
  S (size d) ≤ fuel →
  let loop := while_exists d (candidate_filename last first ic_id ext) in
  let target := new_filename last first ic_id ext in
  loop fuel target 1 = loop (S (size d)) target 1 ∧
  d !! (loop fuel target 1).1 = None ∧
  (loop fuel target 1).2 ≤ S (size d).
Proof.
  intros Hfuel loop target.
  pose proof (while_exists_exits d (candidate_filename last first ic_id ext) target 1 _)
    as Hfree.
  assert (loop fuel target 1 = loop (S (size d)) target 1) as Heq.
  { by apply while_exists_more_fuel. }
  rewrite Heq. split_and!; [done..|].
  destruct (loop (S (size d)) target 1) as [c n] eqn:Hw. simpl.
  apply while_exists_first in Hw as [[-> ->]|(He & Hlt & -> & Hall)]; [lia|].
  assert (n - 1 ≤ size d); [|lia].
  apply (names_in_directory d (nth_name last first ic_id ext) 0).
  { apply nth_name_inj. }
  intros [|k] Hk; simpl; [done|]. apply Hall. lia.
Qed.

Lemma collision_loop_terminates_witness :
  let loop := while_exists Sample.target_taken (candidate_filename "Smith" "Ann" "1" ".jpg") in
  let target := new_filename "Smith" "Ann" "1" ".jpg" in
  S (size Sample.target_taken) ≤ 100 ∧
  loop 100 target 1 = loop (S (size Sample.target_taken)) target 1 ∧
  Sample.target_taken !! (loop 100 target 1).1 = None ∧
  (loop 100 target 1).2 ≤ S (size Sample.target_taken).
Proof.
  intros loop target.
  assert (S (size Sample.target_taken) ≤ 100) as Hle by (vm_compute; lia).
  split; [exact Hle|].
  apply (collision_loop_terminates Sample.target_taken "Smith" "Ann" "1" ".jpg" 100 Hle).
Defined.

Section AnyIndex.
Variable rename_ok : string → string → bool.
Variable fieldnames : list string.

Lemma rename_row_conserves (r : row) (d : directory) (lg : log) :
  let result := rename_row rename_ok fieldnames r (d, lg) in
  size result.2.1 = size d ∧ (map_to_list result.2.1).*2 ≡ₚ (map_to_list d).*2.
Proof.
  unfold rename_row.
  destruct (required_fields fieldnames r) as [[[o f] l]|]; [|done].
  pose proof (while_exists_exits d
    (candidate_filename l f (resolve_ic_id (dict_get fieldnames r "IC ID Number"))
       (os_path_splitext o).2)
    (new_filename l f (resolve_ic_id (dict_get fieldnames r "IC ID Number"))
       (os_path_splitext o).2) 1 _) as Hfree.
  destruct (while_exists d _ (S (size d)) _ 1) as [c n]. simpl in Hfree.
  destruct (d !! o) as [v|] eqn:Hv; [|done].
  destruct (rename_ok o c); [|done]. simpl.
  assert (c ≠ o) as Hco by (intros ->; congruence).
  assert (delete o d !! c = None) as Hdc by by rewrite lookup_delete_ne.
  split.
  - rewrite map_size_insert_None by done.
    rewrite map_size_delete_Some by eauto.
    assert (size d ≠ 0); [|lia].
    intros Hz%map_size_empty_inv. by rewrite Hz, lookup_empty in Hv.
  - rewrite (map_to_list_insert _ _ _ Hdc), fmap_cons. simpl.
    rewrite <-(map_to_list_delete d o v Hv), fmap_cons. done.
Qed.

(** X6: whatever the index holds and whatever [os.rename] does, the
    renaming pass overwrites no file and loses none: the directory has
    as many names afterwards as before, and they name the same files. *)
Theorem renaming_overwrites_nothing (rows : list row) (d : directory) (lg : log) :
  let result := rename_rows rename_ok fieldnames rows (d, lg) in
  size result.2.1 = size d ∧
  (map_to_list result.2.1).*2 ≡ₚ (map_to_list d).*2.
Proof.
  revert d lg. induction rows as [|r rows IH]; intros d lg result; subst result; [done|].
  destruct r as [|x r]; [apply IH|].
  rewrite rename_rows_cons.
  pose proof (rename_row_conserves (x :: r) d lg) as [Hs Hp].
  destruct (rename_row rename_ok fieldnames (x :: r) (d, lg)) as [[[]|] [d1 lg1]];
    simpl in Hs, Hp; [|by split].
  destruct (IH d1 lg1) as [Hs' Hp']. split; [congruence|]. by rewrite Hp'.
Qed.

Hypothesis rename_returns : ∀ src dst, rename_ok src dst = true.

Lemma rename_row_entry (x : string) (r : row) (d : directory) (lg : log) :
  ∃ d' e, rename_row rename_ok fieldnames (x :: r) (d, lg) = (Returned (), (d', lg ++ [e]))
          ∧ row_entry fieldnames (x :: r) e.
Proof.
  unfold row_entry.
  destruct (required_fields fieldnames (x :: r)) as [[[o f] l]|] eqn:Hf.
  2:{ unfold rename_row. rewrite Hf. eauto. }
  destruct (d !! o) as [v|] eqn:Hv.
  - destruct (rename_row_renames rename_ok fieldnames rename_returns (x :: r) d lg
                o f l v Hf Hv) as (c & n & Hr & Hc & Hform).
    assert (name_for fieldnames (x :: r) c) as Hname.
    { exists o, f, l. split; [done|]. simpl.
      destruct Hform as [[-> _]|(_ & Hlt & -> & _)]; [by left|].
      right. exists (n - 1). split; [lia|done]. }
    eexists _, _. split; [exact Hr|]. right. exists c. split; [|done].
    do 3 f_equal. destruct Hform as [[-> ->]|(_ & Hlt & -> & _)].
    + rewrite (bool_decide_eq_false_2 (1 < 1)) by lia.
      by rewrite bool_decide_eq_true_2.
    + rewrite (bool_decide_eq_true_2 (1 < n)) by done.
      rewrite bool_decide_eq_false_2; [done|]. apply candidate_filename_not_new.
  - unfold rename_row. rewrite Hf.
    destruct (while_exists d _ _ _ _) as [c n]. rewrite Hv. eauto.
Qed.

(** X7: when [os.rename] returns, the pass runs over the whole index and
    every non-empty row leaves exactly one log entry, in row order: a
    warning for a row without file name, given name or family name
    (nothing is renamed), an error for a payload file that is not in the
    directory, or the renaming to the bare target or a suffixed form of
    it, marked "sequence appended" exactly when it is a suffixed form. *)
Theorem every_row_is_accounted_for (rows : list row) (d : directory) (lg : log) :
  ∃ d' lg',
    rename_rows rename_ok fieldnames rows (d, lg) = (Returned (), (d', lg ++ lg')) ∧
    Forall2 (row_entry fieldnames) (filter (λ r, r ≠ []) rows) lg'.
Proof.
  revert d lg. induction rows as [|r rows IH]; intros d lg.
  { exists d, []. rewrite app_nil_r. split; [done|constructor]. }
  destruct r as [|x r].
  - destruct (IH d lg) as (d' & lg' & Hr & Hall). exists d', lg'.
    split; [done|]. by rewrite filter_cons, decide_False by (by intros ?).
  - destruct (rename_row_entry x r d lg) as (d1 & e & Hrow & He).
    destruct (IH d1 (lg ++ [e])) as (d' & lg' & Hr & Hall).
    exists d', (e :: lg'). split.
    + rewrite rename_rows_cons, Hrow, Hr. by rewrite <-app_assoc.
    + rewrite filter_cons, decide_True by done. by constructor.
Qed.
End AnyIndex.

Lemma every_row_is_accounted_for_witness :
  let rows := [["photo1.jpg"; ""; "Smith"; "1"]; [];
               ["missing.jpg"; "Bob"; "Jones"; "2"];
               ["photo1.jpg"; "Ann"; "Smith"; "3"]] in
  (∀ src dst : string, (λ _ _, true) src dst = true) ∧
  ∃ d' lg',
    rename_rows (λ _ _, true) Sample.header rows (Sample.three_photos, [])
      = (Returned (), (d', [] ++ lg')) ∧
    Forall2 (row_entry Sample.header) (filter (λ r, r ≠ []) rows) lg'.
Proof.
  intros rows. split; [done|].
  apply (every_row_is_accounted_for (λ _ _, true) Sample.header (λ _ _, eq_refl)
           rows Sample.three_photos []).
Defined.

(** The same index, evaluated. *)
Example rename_mixed_rows :
  (rename_rows (λ _ _, true) Sample.header
     [["photo1.jpg"; ""; "Smith"; "1"]; [];
      ["missing.jpg"; "Bob"; "Jones"; "2"];
      ["photo1.jpg"; "Ann"; "Smith"; "3"]] (Sample.three_photos, [])).2.2
  = [(WARNING, MissingRequiredData ["photo1.jpg"; ""; "Smith"; "1"]);
     (ERROR, PayloadNotFound "missing.jpg");
     (INFO, Renamed "photo1.jpg" "Smith, Ann - 3.jpg" false)].
Proof. by vm_compute. Qed.

(* ------------------------------------------------------------------ *)
(** ** Upload *)
(* ------------------------------------------------------------------ *)

Lemma upload_file_to_drive_log (drv : string → upload_outcome)
    (local_file : string) (st : drive_state) :
  drv local_file ≠ MediaRaises →
  drive_log (upload_file_to_drive drv local_file st).2
    = drive_log st ++ [upload_entry drv local_file].
Proof. unfold upload_file_to_drive, upload_entry. by destruct (drv local_file). Qed.

Lemma upload_file_to_drive_log_prefix (drv : string → upload_outcome)
    (local_file : string) (st : drive_state) :
  drive_log st `prefix_of` drive_log (upload_file_to_drive drv local_file st).2.
Proof.
  unfold upload_file_to_drive.
  destruct (drv local_file); simpl; [done|by apply prefix_app_r..].
Qed.

Lemma upload_one_log_prefix (drv : string → upload_outcome) (extraction_dir : string)
    (entry : string * node) (st : drive_state) :
  drive_log st `prefix_of` drive_log (upload_one drv extraction_dir entry st).2.
Proof.
  destruct entry as [file [|f]]; simpl; [done|].
  assert (∀ st', drive_log st `prefix_of` drive_log st' →
    drive_log st `prefix_of`
      drive_log (match upload_file_to_drive drv (os_path_join extraction_dir file) st'
                 with
                 | (Returned _, st) => (Returned (), st)
                 | (Raised, st) => (Raised, st)
                 end).2) as Hup.
  { intros st' Hpre.
    pose proof (upload_file_to_drive_log_prefix drv
                  (os_path_join extraction_dir file) st') as Hlog.
    destruct (upload_file_to_drive _ _ _) as [[|] ?]; simpl in *; by etrans. }
  destruct (endswith (lower file) ".csv"); [|by apply Hup].
  destruct (text_first_line f) as [first_line|].
  - destruct (contains "File name" first_line); [|by apply Hup].
    simpl. by apply prefix_app_r.
  - apply Hup. simpl. by apply prefix_app_r.
Qed.

Lemma upload_loop_log_prefix (drv : string → upload_outcome) (extraction_dir : string)
    (listing : list (string * node)) (st : drive_state) :
  drive_log st `prefix_of` drive_log (upload_loop drv extraction_dir listing st).2.
Proof.
  revert st. induction listing as [|entry listing IH]; intros st; simpl; [done|].
  pose proof (upload_one_log_prefix drv extraction_dir entry st) as Hone.
  destruct (upload_one drv extraction_dir entry st) as [[[]|] st1]; simpl in *; [|done].
  etrans; [exact Hone|apply IH].
Qed.

Lemma upload_one_log_entry (drv : string → upload_outcome) (extraction_dir : string)
    (entry : string * node) (st : drive_state) :
  uploadable entry = true →
  drv (os_path_join extraction_dir entry.1) ≠ MediaRaises →
  upload_entry drv (os_path_join extraction_dir entry.1)
    ∈ drive_log (upload_one drv extraction_dir entry st).2.
Proof.
  destruct entry as [file [|f]]; unfold uploadable, is_index_csv; simpl; [done|].
  intros Hup Hopen.
  assert (∀ st', upload_entry drv (os_path_join extraction_dir file)
    ∈ drive_log (match upload_file_to_drive drv (os_path_join extraction_dir file) st'
                 with
                 | (Returned _, st) => (Returned (), st)
                 | (Raised, st) => (Raised, st)
                 end).2) as Hin.
  { intros st'.
    pose proof (upload_file_to_drive_log drv _ st' Hopen) as Hlog.
    destruct (upload_file_to_drive _ _ _) as [[|] ?]; simpl in *;
      rewrite Hlog; apply elem_of_app; right; by apply list_elem_of_singleton. }
  destruct (endswith (lower file) ".csv"); [|by apply Hin].
  destruct (text_first_line f) as [first_line|]; [|by apply Hin].
  destruct (contains "File name" first_line); [done|by apply Hin].
Qed.

Lemma upload_one_returns_when (drv : string → upload_outcome) (extraction_dir : string)
    (entry : string * node) (st : drive_state) :
  (uploadable entry = true → drv (os_path_join extraction_dir entry.1) ≠ MediaRaises) →
  (upload_one drv extraction_dir entry st).1 = Returned ().
Proof.
  destruct entry as [file [|f]]; unfold uploadable, is_index_csv; simpl; [done|].
  intros Hopen.
  assert (drv (os_path_join extraction_dir file) ≠ MediaRaises →
    ∀ st', (match upload_file_to_drive drv (os_path_join extraction_dir file) st'
            with
            | (Returned _, st) => (Returned (), st)
            | (Raised, st) => (Raised, st)
            end).1 = Returned ()) as Hup.
  { intros Hne st'.
    destruct (upload_file_to_drive_returns drv _ st' Hne) as [id Hid].
    destruct (upload_file_to_drive _ _ _) as [[|] ?]; simpl in *; done. }
  destruct (endswith (lower file) ".csv"); [|by apply Hup, Hopen].
  destruct (text_first_line f) as [first_line|]; [|by apply Hup, Hopen].
  destruct (contains "File name" first_line); [done|by apply Hup, Hopen].
Qed.

Lemma upload_one_raises (drv : string → upload_outcome) (extraction_dir : string)
    (entry : string * node) (st : drive_state) :
  uploadable entry = true →
  drv (os_path_join extraction_dir entry.1) = MediaRaises →
  (upload_one drv extraction_dir entry st).1 = Raised.
Proof.
  destruct entry as [file [|f]]; unfold uploadable, is_index_csv; simpl; [done|].
  intros Hup Hraises.
  assert (∀ st', (match upload_file_to_drive drv (os_path_join extraction_dir file) st'
                  with
                  | (Returned _, st) => (Returned (), st)
                  | (Raised, st) => (Raised, st)
                  end).1 = Raised) as Hr.
  { intros st'. unfold upload_file_to_drive. by rewrite Hraises. }
  destruct (endswith (lower file) ".csv"); [|by apply Hr].
  destruct (text_first_line f) as [first_line|]; [|by apply Hr].
  destruct (contains "File name" first_line); [done|by apply Hr].
Qed.

Lemma upload_loop_returns_when (drv : string → upload_outcome) (extraction_dir : string)
    (listing : list (string * node)) (st : drive_state) :
  (∀ e, e ∈ listing → uploadable e = true →
        drv (os_path_join extraction_dir e.1) ≠ MediaRaises) →
  (upload_loop drv extraction_dir listing st).1 = Returned ().
Proof.
  revert st. induction listing as [|entry listing IH]; intros st Hopen; simpl; [done|].
  pose proof (upload_one_returns_when drv extraction_dir entry st) as Hone.
  destruct (upload_one drv extraction_dir entry st) as [[[]|] st1]; simpl in *.
  - apply IH. intros e He. apply Hopen. by apply elem_of_cons; right.
  - discriminate Hone. apply Hopen. by apply elem_of_cons; left.
Qed.

Lemma upload_loop_app (drv : string → upload_outcome) (extraction_dir : string)
    (l1 l2 : list (string * node)) (st : drive_state) :
  upload_loop drv extraction_dir (l1 ++ l2) st
  = match upload_loop drv extraction_dir l1 st with
    | (Returned _, st1) => upload_loop drv extraction_dir l2 st1
    | (Raised, st1) => (Raised, st1)
    end.
Proof.
  revert st. induction l1 as [|entry l1 IH]; intros st; simpl; [done|].
  destruct (upload_one drv extraction_dir entry st) as [[[]|] st1]; [apply IH|done].
Qed.

Lemma upload_loop_log_entries (drv : string → upload_outcome) (extraction_dir : string)
    (listing : list (string * node)) (st : drive_state) :
  (∀ e, e ∈ listing → uploadable e = true →
        drv (os_path_join extraction_dir e.1) ≠ MediaRaises) →
  ∀ e, e ∈ listing → uploadable e = true →
       upload_entry drv (os_path_join extraction_dir e.1)
         ∈ drive_log (upload_loop drv extraction_dir listing st).2.
Proof.
  revert st. induction listing as [|entry listing IH]; intros st Hopen e He Hup.
  { by apply elem_of_nil in He. }
  simpl.
  assert (∀ e, e ∈ listing → uploadable e = true →
               drv (os_path_join extraction_dir e.1) ≠ MediaRaises) as Hrest.
  { intros e' He'. apply Hopen. by apply elem_of_cons; right. }
  pose proof (upload_one_returns_when drv extraction_dir entry st) as Hone.
  pose proof (upload_one_log_entry drv extraction_dir entry st) as Hentry.
  pose proof (upload_loop_log_prefix drv extraction_dir listing) as Hpre.
  destruct (upload_one drv extraction_dir entry st) as [[[]|] st1]; simpl in *.
  2:{ discriminate Hone. apply Hopen. by apply elem_of_cons; left. }
  apply elem_of_cons in He as [->|He]; [|by apply IH].
  eapply elem_of_prefix; [apply Hpre|]. apply Hentry; [done|].
  apply Hopen; [by apply elem_of_cons; left|done].
Qed.

(** X8: when every file can be opened for upload, a refusal by the
    Drive API stops nothing: the upload of an extraction directory
    returns, [upload_file_to_drive] is called once for every regular
    file that is not held for an index CSV, in listing order, every such
    call left its entry in the log, "uploaded" with the file id or
    "error uploading", and the last entry is "finished uploading". *)
Theorem api_refusal_does_not_stop_uploads (drv : string → upload_outcome)
    (extraction_dir : string) (listing : list (string * node)) (st : drive_state) :
  (∀ e, e ∈ listing → uploadable e = true →
        drv (os_path_join extraction_dir e.1) ≠ MediaRaises) →
  let result := upload_extracted_files drv extraction_dir (Some listing) st in
  let sent := filter (λ e, uploadable e = true) listing in
  result.1 = Returned () ∧
  upload_calls result.2 = upload_calls st ++ (os_path_join extraction_dir <$> sent.*1) ∧
  (∀ e, e ∈ sent →
        upload_entry drv (os_path_join extraction_dir e.1) ∈ drive_log result.2) ∧
  last (drive_log result.2) = Some (INFO, FinishedUploading extraction_dir).
Proof.
  intros Hopen result sent. subst result sent. unfold upload_extracted_files.
  pose proof (upload_loop_returns_when drv extraction_dir listing st Hopen) as Hret.
  destruct (upload_loop_calls drv extraction_dir listing st) as (k & Hk & Hall).
  pose proof (upload_loop_log_entries drv extraction_dir listing st Hopen) as Hlog.
  destruct (upload_loop drv extraction_dir listing st) as [[[]|] st1]; simpl in *; [|done].
  split_and!; [done| | |by rewrite last_snoc].
  - rewrite Hk, (Hall eq_refl). by rewrite firstn_all.
  - intros e [Hup He]%list_elem_of_filter. apply elem_of_app. left. by apply Hlog.
Qed.

Lemma api_refusal_does_not_stop_uploads_witness :
  let drv := Sample.drive_refuses_photo in
  let result := upload_extracted_files drv "x/a" (Some Sample.listing_two_csv)
                  (DriveState [] []) in
  let sent := filter (λ e, uploadable e = true) Sample.listing_two_csv in
  (∀ e, e ∈ Sample.listing_two_csv → uploadable e = true →
        drv (os_path_join "x/a" e.1) ≠ MediaRaises) ∧
  result.1 = Returned () ∧
  upload_calls result.2 = [] ++ (os_path_join "x/a" <$> sent.*1) ∧
  (∀ e, e ∈ sent → upload_entry drv (os_path_join "x/a" e.1) ∈ drive_log result.2) ∧
  last (drive_log result.2) = Some (INFO, FinishedUploading "x/a").
Proof.
  intros drv result sent.
  assert (∀ e, e ∈ Sample.listing_two_csv → uploadable e = true →
               drv (os_path_join "x/a" e.1) ≠ MediaRaises) as Hopen.
  { intros e He _. unfold Sample.listing_two_csv in He.
    repeat (apply elem_of_cons in He as [->|He]; [by vm_compute|]).
    by apply elem_of_nil in He. }
  split; [exact Hopen|].
  apply (api_refusal_does_not_stop_uploads drv "x/a" Sample.listing_two_csv
           (DriveState [] []) Hopen).
Defined.

(** The same upload, evaluated. *)
Example upload_with_refusal :
  upload_extracted_files Sample.drive_refuses_photo "x/a" (Some Sample.listing_two_csv)
    (DriveState [] [])
  = (Returned (),
     DriveState ["x/a/Smith, Ann - 12345.jpg"; "x/a/notes.csv"]
       [(ERROR, ErrorUploading "Smith, Ann - 12345.jpg");
        (INFO, SkippingIndexCsv "index.csv");
        (INFO, SkippingIndexCsv "Report.CSV");
        (INFO, Uploaded "notes.csv" "id:x/a/notes.csv");
        (INFO, FinishedUploading "x/a")]).
Proof. by vm_compute. Qed.

Lemma upload_file_to_drive_log_added (drv : string → upload_outcome)
    (local_file : string) (st : drive_state) :
  ∃ lg, drive_log (upload_file_to_drive drv local_file st).2 = drive_log st ++ lg ∧
        Forall (λ e, ∀ dir, e ≠ (INFO, FinishedUploading dir)) lg.
Proof.
  unfold upload_file_to_drive. destruct (drv local_file); simpl.
  - exists []. by rewrite app_nil_r.
  - eexists [_]. split; [done|]. by repeat constructor.
  - eexists [_]. split; [done|]. by repeat constructor.
Qed.

Lemma upload_one_log_added (drv : string → upload_outcome) (extraction_dir : string)
    (entry : string * node) (st : drive_state) :
  ∃ lg, drive_log (upload_one drv extraction_dir entry st).2 = drive_log st ++ lg ∧
        Forall (λ e, ∀ dir, e ≠ (INFO, FinishedUploading dir)) lg.
Proof.
  destruct entry as [file [|f]]; simpl.
  { exists []. by rewrite app_nil_r. }
  assert (∀ st', ∃ lg,
    drive_log (match upload_file_to_drive drv (os_path_join extraction_dir file) st'
               with
               | (Returned _, st) => (Returned (), st)
               | (Raised, st) => (Raised, st)
               end).2 = drive_log st' ++ lg ∧
    Forall (λ e, ∀ dir, e ≠ (INFO, FinishedUploading dir)) lg) as Hup.
  { intros st'.
    destruct (upload_file_to_drive_log_added drv
                (os_path_join extraction_dir file) st') as (lg & Hlg & Hall).
    exists lg. by destruct (upload_file_to_drive _ _ _) as [[|] ?]. }
  destruct (endswith (lower file) ".csv"); [|by apply Hup].
  destruct (text_first_line f) as [first_line|].
  - destruct (contains "File name" first_line); [|by apply Hup].
    eexists [_]. split; [done|]. by repeat constructor.
  - destruct (Hup (drive_logging ERROR
                     (ErrorReadingFile (os_path_join extraction_dir file)) st))
      as (lg & Hlg & Hall).
    eexists (_ :: lg). rewrite Hlg. simpl. split; [by rewrite <-app_assoc|].
    by constructor.
Qed.

Lemma upload_loop_log_added (drv : string → upload_outcome) (extraction_dir : string)
    (listing : list (string * node)) (st : drive_state) :
  ∃ lg, drive_log (upload_loop drv extraction_dir listing st).2 = drive_log st ++ lg ∧
        Forall (λ e, ∀ dir, e ≠ (INFO, FinishedUploading dir)) lg.
Proof.
  revert st. induction listing as [|entry listing IH]; intros st; simpl.
  { exists []. by rewrite app_nil_r. }
  destruct (upload_one_log_added drv extraction_dir entry st) as (lg1 & Hlg1 & Hall1).
  destruct (upload_one drv extraction_dir entry st) as [[[]|] st1]; simpl in *; [|eauto].
  destruct (IH st1) as (lg2 & Hlg2 & Hall2).
  exists (lg1 ++ lg2). rewrite Hlg2, Hlg1. split; [by rewrite <-app_assoc|].
  by apply Forall_app.
Qed.

(** X9: [MediaFileUpload] stands outside the [try]: the first file of
    the listing that cannot be opened for upload ends the upload of the
    directory by its exception.  The files before it were passed to
    [upload_file_to_drive], the file itself was, and no file after it
    is. *)
Theorem unopenable_file_ends_upload (drv : string → upload_outcome)
    (extraction_dir : string) (before after : list (string * node))
    (entry : string * node) (st : drive_state) :
  (∀ e, e ∈ before → uploadable e = true →
        drv (os_path_join extraction_dir e.1) ≠ MediaRaises) →
  uploadable entry = true →
  drv (os_path_join extraction_dir entry.1) = MediaRaises →
  let result := upload_extracted_files drv extraction_dir
                  (Some (before ++ entry :: after)) st in
  result.1 = Raised ∧
  upload_calls result.2
    = upload_calls st
      ++ (os_path_join extraction_dir <$> (filter (λ e, uploadable e = true) before).*1)
      ++ [os_path_join extraction_dir entry.1] ∧
  (INFO, FinishedUploading extraction_dir) ∉
    drop (length (drive_log st)) (drive_log result.2).
Proof.
  intros Hopen Hup Hraises result. subst result.
  unfold upload_extracted_files. rewrite upload_loop_app.
  pose proof (upload_loop_returns_when drv extraction_dir before st Hopen) as Hret.
  destruct (upload_loop_calls drv extraction_dir before st) as (k & Hk & Hall).
  destruct (upload_loop_log_added drv extraction_dir before st) as (lg1 & Hlg1 & Hall1).
  destruct (upload_loop drv extraction_dir before st) as [[[]|] st1]; simpl in *; [|done].
  pose proof (upload_one_raises drv extraction_dir entry st1 Hup Hraises) as Hone.
  pose proof (upload_one_calls drv extraction_dir entry st1) as Hcalls.
  destruct (upload_one_log_added drv extraction_dir entry st1) as (lg2 & Hlg2 & Hall2).
  rewrite Hup in Hcalls.
  destruct (upload_one drv extraction_dir entry st1) as [[[]|] st2]; simpl in *; [done|].
  split_and!; [done| |].
  - rewrite Hcalls, Hk, (Hall eq_refl), firstn_all. by rewrite <-app_assoc.
  - rewrite Hlg2, Hlg1, <-app_assoc, drop_app_length.
    intros [Hin|Hin]%elem_of_app.
    + rewrite Forall_forall in Hall1. by eapply Hall1.
    + rewrite Forall_forall in Hall2. by eapply Hall2.
Qed.

Lemma unopenable_file_ends_upload_witness :
  let drv := Sample.drive_cannot_open_notes in
  let before := take 3 Sample.listing_two_csv in
  let entry := ("notes.csv", Regular (Contents (Some "a,b") (Some "a,b")
                                        (Yields [["a"; "b"]] false))) in
  let result := upload_extracted_files drv "x/a"
                  (Some (before ++ entry :: [("sub", Dir)])) (DriveState [] []) in
  (∀ e, e ∈ before → uploadable e = true → drv (os_path_join "x/a" e.1) ≠ MediaRaises) ∧
  uploadable entry = true ∧
  drv (os_path_join "x/a" entry.1) = MediaRaises ∧
  result.1 = Raised ∧
  upload_calls result.2
    = [] ++ (os_path_join "x/a" <$> (filter (λ e, uploadable e = true) before).*1)
      ++ [os_path_join "x/a" entry.1] ∧
  (INFO, FinishedUploading "x/a") ∉ drop (length ([] : log)) (drive_log result.2).
Proof.
  intros drv before entry result.
  assert (∀ e, e ∈ before → uploadable e = true →
               drv (os_path_join "x/a" e.1) ≠ MediaRaises) as Hopen.
  { intros e He _. unfold before, Sample.listing_two_csv in He. simpl in He.
    repeat (apply elem_of_cons in He as [->|He]; [by vm_compute|]).
    by apply elem_of_nil in He. }
  assert (uploadable entry = true) as Hup by by vm_compute.
  assert (drv (os_path_join "x/a" entry.1) = MediaRaises) as Hraises by by vm_compute.
  split; [exact Hopen|]. split; [exact Hup|]. split; [exact Hraises|].
  apply (unopenable_file_ends_upload drv "x/a" before [("sub", Dir)] entry
           (DriveState [] []) Hopen Hup Hraises).
Defined.

(* ------------------------------------------------------------------ *)
(** ** Cleanup *)
(* ------------------------------------------------------------------ *)

Section Cleanup.
Variable remove_ok : string → bool.
Variable directory : string.

Lemma cleanup_entry_lookup (m : gmap string kind) (lg : cleanup_log)
    (filename : string) (k : kind) (n : string) :
  (cleanup_entry remove_ok directory (m, lg) (filename, k)).1 !! n
  = if decide (n = filename)
    then (if kept remove_ok filename k then m !! n else None)
    else m !! n.
Proof.
  unfold cleanup_entry, kept.
  destruct (is_log_file filename); simpl; [by destruct (decide _)|].
  destruct k, (remove_ok filename); simpl;
    destruct (decide (n = filename)) as [->|Hne];
    rewrite ?lookup_delete_eq, ?lookup_delete_ne by done; done.
Qed.

Lemma cleanup_entry_log (m : gmap string kind) (lg : cleanup_log)
    (entry : string * kind) :
  lg `prefix_of` (cleanup_entry remove_ok directory (m, lg) entry).2.
Proof.
  destruct entry as [filename k]. unfold cleanup_entry.
  destruct (is_log_file filename); simpl; [by apply prefix_app_r|].
  destruct k, (remove_ok filename); simpl; done || by apply prefix_app_r.
Qed.

Lemma cleanup_fold_log (l : list (string * kind)) (m : gmap string kind)
    (lg : cleanup_log) :
  lg `prefix_of` (foldl (cleanup_entry remove_ok directory) (m, lg) l).2.
Proof.
  revert m lg. induction l as [|entry l IH]; intros m lg; cbn [foldl]; [done|].
  pose proof (cleanup_entry_log m lg entry) as Hone.
  destruct (cleanup_entry remove_ok directory (m, lg) entry) as [m1 lg1].
  etrans; [exact Hone|apply IH].
Qed.

Lemma cleanup_fold_gone (l : list (string * kind)) (m : gmap string kind)
    (lg : cleanup_log) (n : string) :
  m !! n = None →
  (foldl (cleanup_entry remove_ok directory) (m, lg) l).1 !! n = None.
Proof.
  revert m lg. induction l as [|[filename k] l IH]; intros m lg Hn; cbn [foldl]; [done|].
  pose proof (cleanup_entry_lookup m lg filename k n) as Hone.
  destruct (cleanup_entry remove_ok directory (m, lg) (filename, k)) as [m1 lg1].
  apply IH. simpl in Hone. rewrite Hone, Hn.
  destruct (decide _); [by destruct (kept _ _ _)|done].
Qed.

Lemma cleanup_fold_kept (l : list (string * kind)) (m : gmap string kind)
    (lg : cleanup_log) (n : string) :
  (∀ k, (n, k) ∈ l → kept remove_ok n k = true) →
  (foldl (cleanup_entry remove_ok directory) (m, lg) l).1 !! n = m !! n.
Proof.
  revert m lg. induction l as [|[filename k] l IH]; intros m lg Hkept; cbn [foldl]; [done|].
  pose proof (cleanup_entry_lookup m lg filename k n) as Hone.
  destruct (cleanup_entry remove_ok directory (m, lg) (filename, k)) as [m1 lg1].
  rewrite IH.
  - simpl in Hone. rewrite Hone. destruct (decide (n = filename)) as [->|]; [|done].
    rewrite Hkept; [done|]. by apply elem_of_cons; left.
  - intros k' Hk'. apply Hkept. by apply elem_of_cons; right.
Qed.

Lemma cleanup_fold_removed (l : list (string * kind)) (m : gmap string kind)
    (lg : cleanup_log) (n : string) (k : kind) :
  (n, k) ∈ l → kept remove_ok n k = false →
  (foldl (cleanup_entry remove_ok directory) (m, lg) l).1 !! n = None.
Proof.
  revert m lg. induction l as [|[filename k'] l IH]; intros m lg Hin Hk; cbn [foldl].
  { by apply elem_of_nil in Hin. }
  pose proof (cleanup_entry_lookup m lg filename k' n) as Hone.
  destruct (cleanup_entry remove_ok directory (m, lg) (filename, k')) as [m1 lg1].
  apply elem_of_cons in Hin as [[= <- <-]|Hin]; [|by apply IH].
  apply cleanup_fold_gone. simpl in Hone.
  by rewrite Hone, decide_True, Hk by done.
Qed.

Lemma cleanup_fold_preserving (l : list (string * kind)) (m : gmap string kind)
    (lg : cleanup_log) (n : string) (k : kind) :
  (n, k) ∈ l → is_log_file n = true →
  (INFO, PreservingLogFile (os_path_join directory n))
    ∈ (foldl (cleanup_entry remove_ok directory) (m, lg) l).2.
Proof.
  revert m lg. induction l as [|[filename k'] l IH]; intros m lg Hin Hlog; cbn [foldl].
  { by apply elem_of_nil in Hin. }
  apply elem_of_cons in Hin as [[= <- <-]|Hin].
  - assert (cleanup_entry remove_ok directory (m, lg) (n, k)
            = (m, lg ++ [(INFO, PreservingLogFile (os_path_join directory n))])) as ->.
    { unfold cleanup_entry. by rewrite Hlog. }
    eapply elem_of_prefix; [apply cleanup_fold_log|].
    apply elem_of_app. right. by apply list_elem_of_singleton.
  - destruct (cleanup_entry remove_ok directory (m, lg) (filename, k')) as [m1 lg1].
    by apply IH.
Qed.

Lemma cleanup_fold_lookup (d : gmap string kind) (lg : cleanup_log) (n : string) :
  (foldl (cleanup_entry remove_ok directory) (d, lg) (map_to_list d)).1 !! n
  = k ← d !! n; if kept remove_ok n k then Some k else None.
Proof.
  destruct (d !! n) as [k|] eqn:Hn; simpl.
  - destruct (kept remove_ok n k) eqn:Hk.
    + rewrite cleanup_fold_kept; [done|].
      intros k' Hk'%elem_of_map_to_list. by simplify_eq.
    + apply (cleanup_fold_removed _ _ _ n k); [|done]. by apply elem_of_map_to_list.
  - by apply cleanup_fold_gone.
Qed.

(** X10: [cleanup_directory] on a directory that exists and can be
    listed returns, adds no name, and leaves in it exactly the log files
    ("log-*.log"), the names that are neither file, link nor directory,
    and what [os.unlink] or [shutil.rmtree] failed on; every log file
    has its "preserving" entry in the log. *)
Theorem cleanup_directory_keeps (d : gmap string kind) (lg : cleanup_log) :
  ∃ d' lg',
    cleanup_directory remove_ok true directory (Some d) lg
      = (Returned (), (Some d', lg ++ lg')) ∧
    (∀ filename,
       d' !! filename
       = k ← d !! filename; if kept remove_ok filename k then Some k else None) ∧
    (∀ filename k,
       d !! filename = Some k → is_log_file filename = true →
       d' !! filename = Some k ∧
       (INFO, PreservingLogFile (os_path_join directory filename)) ∈ lg ++ lg').
Proof.
  unfold cleanup_directory.
  pose proof (cleanup_fold_lookup d lg) as Hlookup.
  pose proof (cleanup_fold_log (map_to_list d) d lg) as [lg' Hlg].
  pose proof (cleanup_fold_preserving (map_to_list d) d lg) as Hpres.
  destruct (foldl _ _ _) as [d1 lg1]. simpl in *. subst lg1.
  exists d1, lg'. split_and!; [done|done|].
  intros filename k Hk Hlog. split.
  - rewrite Hlookup, Hk. simpl. unfold kept. by rewrite Hlog.
  - apply (Hpres filename k); [|done]. by apply elem_of_map_to_list.
Qed.
End Cleanup.

(** A consolidated directory, cleaned. *)
Example cleanup_consolidated :
  (cleanup_directory Sample.all_but_locked true CONSOLIDATED_DIR
     (Some Sample.consolidated_dir) []).2.1
  = Some {[ "log-20250101.log" := KFile; "locked.csv" := KFile; "pipe" := KOther ]}.
Proof. by vm_compute. Qed.

(** X11: [cleanup_local_files] goes on after a [shutil.rmtree] that
    fails: it raises only when the consolidated directory exists and
    cannot be listed; a staging directory is there afterwards exactly
    when it was there and its [rmtree] failed; the log starts with
    "starting cleanup" and, when the call returns, ends with "cleanup
    completed"; and a log file of the consolidated directory is still
    there in every case. *)
Theorem cleanup_goes_on_after_failed_rmtree (rmtree_ok remove_ok : string → bool)
    (listdir_ok : bool) (fs : staging) :
  let result := cleanup_local_files rmtree_ok remove_ok listdir_ok fs in
  (result.1 = Raised ↔ is_Some (consolidated fs) ∧ listdir_ok = false) ∧
  download_dir_exists result.2.1
    = download_dir_exists fs && negb (rmtree_ok SFTP_DOWNLOAD_DIR) ∧
  extraction_dir_exists result.2.1
    = extraction_dir_exists fs && negb (rmtree_ok EXTRACTION_BASE_DIR) ∧
  head result.2.2 = Some (INFO, StartingCleanup) ∧
  (result.1 = Returned () → last result.2.2 = Some (INFO, CleanupCompleted)) ∧
  (∀ d filename k,
     consolidated fs = Some d → d !! filename = Some k →
     is_log_file filename = true →
     ∃ d', consolidated result.2.1 = Some d' ∧ d' !! filename = Some k).
Proof.
  intros result. subst result. unfold cleanup_local_files.
  set (staged := if download_dir_exists fs then _ else _).
  assert (∃ lg1, staged = (download_dir_exists fs && negb (rmtree_ok SFTP_DOWNLOAD_DIR),
                           (INFO, StartingCleanup) :: lg1)) as [lg1 ->].
  { subst staged. destruct (download_dir_exists fs); [|by eexists].
    destruct (rmtree_ok SFTP_DOWNLOAD_DIR); by eexists. }
  set (extracted := if extraction_dir_exists fs then _ else _).
  assert (∃ lg2, extracted
            = (extraction_dir_exists fs && negb (rmtree_ok EXTRACTION_BASE_DIR),
               (INFO, StartingCleanup) :: lg2)) as [lg2 ->].
  { subst extracted. destruct (extraction_dir_exists fs); [|by eexists].
    destruct (rmtree_ok EXTRACTION_BASE_DIR); by eexists. }
  unfold cleanup_directory. destruct (consolidated fs) as [d|] eqn:Hd.
  2:{ simpl. split_and!; try done.
      - split; [done|]. by intros [[? ?] _].
      - intros _. by rewrite app_comm_cons, last_snoc. }
  destruct listdir_ok.
  2:{ simpl. split_and!; try done.
      intros d0 filename k [= <-] Hk _. eauto. }
  pose proof (cleanup_fold_lookup remove_ok CONSOLIDATED_DIR d
                ((INFO, StartingCleanup) :: lg2)) as Hlookup.
  pose proof (cleanup_fold_log remove_ok CONSOLIDATED_DIR (map_to_list d) d
                ((INFO, StartingCleanup) :: lg2)) as [lg' Hlg].
  destruct (foldl _ _ _) as [d1 lg3]. simpl in *. subst lg3.
  split_and!; try done.
  - split; [done|]. by intros [_ ?].
  - intros _. by rewrite app_comm_cons, last_snoc.
  - intros d0 filename k [= <-] Hk Hlog. exists d1. split; [done|].
    rewrite Hlookup, Hk. simpl. unfold kept. by rewrite Hlog.
Qed.

(** A cleanup in which the download directory cannot be removed. *)
Example cleanup_with_failed_rmtree :
  cleanup_local_files (λ dir, negb (bool_decide (dir = SFTP_DOWNLOAD_DIR)))
    Sample.all_but_locked true (Staging true true None)
  = (Returned (),
     (Staging true false None,
      [(INFO, StartingCleanup);
       (ERROR, FailedToDeleteStagingDir SFTP_DOWNLOAD_DIR);
       (INFO, DeletedStagingDir EXTRACTION_BASE_DIR);
       (INFO, CleanupCompleted)])).
Proof. by vm_compute. Qed.

(* ------------------------------------------------------------------ *)
(** ** A run without ZIP files *)
(* ------------------------------------------------------------------ *)

(** X12: when files were fetched but [glob] finds no ZIP file in the
    download directory, the run does not stop: "no ZIP files" is logged
    as an error, the master CSV is written with no line at all, and it
    is the only file passed to [upload_file_to_drive]. *)
Theorem no_zip_files_gives_empty_master (w : world) :
  let s := download_files_from_sftp (server w) SFTP_REMOTE_PATH SFTP_DOWNLOAD_DIR
             (filename_mask w) (SftpState (remote_before w) [] []) in
  downloaded_files s ≠ [] →
  init_drive_ok w = true →
  zip_files w = [] →
  consolidated_ok w = true →
  write_ok w = true →
  master_csv (main w) = Some (master_csv_path_of (timestamp w), []) ∧
  uploads (main w) = [master_csv_path_of (timestamp w)] ∧
  (ERROR, NoZipFiles) ∈ run_log (main w) ∧
  (drive_api w (master_csv_path_of (timestamp w)) ≠ MediaRaises →
   cleanup_ok w = true → ending (main w) = Completed).
Proof.
  intros s Hsome Hinit Hzips Hcons Hwrite. unfold main. fold s.
  destruct (downloaded_files s) as [|f fs] eqn:Hdl; [done|].
  rewrite Hinit, Hzips, Hcons, Hwrite. simpl.
  unfold upload_file_to_drive.
  destruct (drive_api w (master_csv_path_of (timestamp w))) eqn:Hapi; simpl;
    [|destruct (cleanup_ok w); simpl..];
    (split_and!; [done|done| |try done; by intros _ ?]);
    rewrite !elem_of_app, !list_elem_of_singleton; tauto.
Qed.

Lemma no_zip_files_gives_empty_master_witness :
  let w := Sample.world_no_zip in
  let s := download_files_from_sftp (server w) SFTP_REMOTE_PATH SFTP_DOWNLOAD_DIR
             (filename_mask w) (SftpState (remote_before w) [] []) in
  downloaded_files s ≠ [] ∧
  init_drive_ok w = true ∧
  zip_files w = [] ∧
  consolidated_ok w = true ∧
  write_ok w = true ∧
  master_csv (main w) = Some (master_csv_path_of (timestamp w), []) ∧
  uploads (main w) = [master_csv_path_of (timestamp w)] ∧
  (ERROR, NoZipFiles) ∈ run_log (main w) ∧
  (drive_api w (master_csv_path_of (timestamp w)) ≠ MediaRaises →
   cleanup_ok w = true → ending (main w) = Completed).
Proof.
  intros w s.
  assert (downloaded_files s ≠ []) as Hsome by by vm_compute.
  split; [exact Hsome|]. do 4 (split; [reflexivity|]).
  apply (no_zip_files_gives_empty_master w Hsome eq_refl eq_refl eq_refl eq_refl).
Defined.

(* ------------------------------------------------------------------ *)
(** ** The list of index CSVs *)
(* ------------------------------------------------------------------ *)

Lemma process_one_zip_index (drv : string → upload_outcome)
    (extraction_base_dir : string) (w : archive_world) (st : batch_state) :
  unguarded_calls_return w →
  (index_csv_list (process_one_zip drv extraction_base_dir w st).2).*1
  = (index_csv_list st).*1 ++ option_list (idx_csv_path_of extraction_base_dir w).
Proof.
  intros [Hdir Hlist]. unfold process_one_zip, idx_csv_path_of.
  assert (∀ (ol : option (list (string * node))) ds idx,
    (index_csv_list
       (match upload_extracted_files drv
                (extraction_dir_of extraction_base_dir (zip_file w)) ol ds with
        | (Returned _, ds) => (Returned (), BatchState idx ds)
        | (Raised, ds) => (Raised, BatchState idx ds)
        end).2) = idx) as Hup.
  { intros ol ds idx. by destruct (upload_extracted_files _ _ _ _) as [[|] ?]. }
  destruct (extraction_dir_before w) as [d0|]; simpl.
  - destruct (process_zip_archive _ _ _ _ _) as [[idx d1] lg]. rewrite Hup. simpl.
    destruct idx; simpl; [by rewrite fmap_app|by rewrite app_nil_r].
  - destruct Hdir as [[? ?]| ->]; [done|].
    destruct (process_zip_archive _ _ _ _ _) as [[idx d1] lg]. rewrite Hup. simpl.
    destruct idx; simpl; [by rewrite fmap_app|by rewrite app_nil_r].
Qed.

Lemma process_zip_loop_index (drv : string → upload_outcome)
    (extraction_base_dir : string) (zip_files : list archive_world) (st : batch_state) :
  (∀ p, drv p ≠ MediaRaises) →
  Forall unguarded_calls_return zip_files →
  (index_csv_list (process_zip_loop drv extraction_base_dir zip_files st).2).*1
  = (index_csv_list st).*1 ++ omap (idx_csv_path_of extraction_base_dir) zip_files.
Proof.
  intros Hmedia Hall. revert st.
  induction Hall as [|w zip_files Hw _ IH]; intros st; simpl.
  { by rewrite app_nil_r. }
  pose proof (process_one_zip_returns drv Hmedia extraction_base_dir w st Hw) as Hone.
  pose proof (process_one_zip_index drv extraction_base_dir w st Hw) as Hidx.
  destruct (process_one_zip _ _ _ _) as [[[]|] st1]; simpl in *; [|done].
  rewrite IH, Hidx, <-app_assoc. f_equal.
  by destruct (idx_csv_path_of extraction_base_dir w).
Qed.

(** X13: when the calls that no [try] encloses return,
    [process_all_zip_archives] returns the paths that
    [process_zip_archive] returned, in the order of the ZIP files and
    without the archives for which it returned [None]: at most one path
    for an archive, each the path, in the extraction directory of its
    archive, of the first member of that archive that qualifies as an
    index CSV. *)
Theorem index_list_follows_archives (drv : string → upload_outcome)
    (extraction_base_dir : string) (zip_files : list archive_world)
    (ds : drive_state) :
  (∀ p, drv p ≠ MediaRaises) →
  Forall unguarded_calls_return zip_files →
  ∃ index_csv_files ds',
    process_all_zip_archives drv extraction_base_dir zip_files ds
      = (Returned index_csv_files, ds') ∧
    index_csv_files.*1 = omap (idx_csv_path_of extraction_base_dir) zip_files ∧
    length index_csv_files ≤ length zip_files ∧
    ∀ p, p ∈ index_csv_files.*1 →
      ∃ w e, w ∈ zip_files ∧
        head (filter (λ e, qualifies e = true) (namelist (archive w))) = Some e ∧
        p = os_path_join (extraction_dir_of extraction_base_dir (zip_file w))
              (entry_name e).
Proof.
  intros Hmedia Hall.
  assert (∃ index_csv_files ds',
    process_all_zip_archives drv extraction_base_dir zip_files ds
      = (Returned index_csv_files, ds') ∧
    index_csv_files.*1 = omap (idx_csv_path_of extraction_base_dir) zip_files)
    as (idxs & ds' & Hrun & Hidx).
  { unfold process_all_zip_archives. destruct zip_files as [|w zip_files].
    { by eexists [], _. }
    pose proof (process_zip_loop_returns drv Hmedia extraction_base_dir
                  (w :: zip_files) (BatchState [] ds) Hall) as Hret.
    pose proof (process_zip_loop_index drv extraction_base_dir
                  (w :: zip_files) (BatchState [] ds) Hmedia Hall) as Hidx.
    destruct (process_zip_loop _ _ _ _) as [[[]|] st]; simpl in Hret; [|done].
    by eexists _, _. }
  exists idxs, ds'. split_and!; [done|done| |].
  - rewrite <-(length_fmap fst idxs), Hidx. clear.
    induction zip_files as [|w zip_files IH]; [done|]. csimpl.
    destruct (idx_csv_path_of extraction_base_dir w); simpl; lia.
  - intros p Hp. rewrite Hidx in Hp.
    apply list_elem_of_omap in Hp as (w & Hw & Hpath).
    destruct (process_zip_archive_index _ _ _ _ _ _ Hpath) as (e & He & ->).
    by exists w, e.
Qed.

Lemma index_list_follows_archives_witness :
  let zs := [ArchiveWorld "in/datafile_1.zip" Sample.archive_index_txt None true
               (λ _ _, true) true;
             ArchiveWorld "in/datafile_3.zip" Sample.archive_two_csv None true
               (λ _ _, true) true] in
  (∀ p, Sample.drive_ok p ≠ MediaRaises) ∧
  Forall unguarded_calls_return zs ∧
  ∃ index_csv_files ds',
    process_all_zip_archives Sample.drive_ok "x" zs (DriveState [] [])
      = (Returned index_csv_files, ds') ∧
    index_csv_files.*1 = omap (idx_csv_path_of "x") zs ∧
    length index_csv_files ≤ length zs ∧
    ∀ p, p ∈ index_csv_files.*1 →
      ∃ w e, w ∈ zs ∧
        head (filter (λ e, qualifies e = true) (namelist (archive w))) = Some e ∧
        p = os_path_join (extraction_dir_of "x" (zip_file w)) (entry_name e).
Proof.
  intros zs.
  assert (∀ p, Sample.drive_ok p ≠ MediaRaises) as Hmedia by done.
  assert (Forall unguarded_calls_return zs) as Hall.
  { repeat constructor; by right. }
  split; [exact Hmedia|]. split; [exact Hall|].
  apply (index_list_follows_archives Sample.drive_ok "x" zs (DriveState [] [])
           Hmedia Hall).
Defined.

(** The same archives, evaluated: the first has no index CSV. *)
Example index_list_of_two_archives :
  match (process_all_zip_archives Sample.drive_ok "x"
           [ArchiveWorld "in/datafile_1.zip" Sample.archive_index_txt None true
              (λ _ _, true) true;
            ArchiveWorld "in/datafile_3.zip" Sample.archive_two_csv None true
              (λ _ _, true) true] (DriveState [] [])).1 with
  | Returned index_csv_files => index_csv_files.*1 = ["x/datafile_3/index.csv"]
  | Raised => False
  end.
Proof. by vm_compute. Qed.
